(** * The catalog browser's client state and filtering engine

    A shallow embedding of [src/App.tsx] and [src/types.ts]: the playlist
    toggle, the filter effect with its debounce timer, the translation
    resolver [t], the [useState] initialisers that read [localStorage], and
    the login and logout handlers.

    JavaScript strings are modelled by [string], the JavaScript [number] of
    [Video.id] and [Video.price] by [Z], [localStorage] by a finite map
    from keys to stored strings, the timers of the host by a clock and a
    list of pending timers.  [JSON.parse] accepts the texts of the JSON
    grammar; the value it builds and [String.prototype.toLowerCase] are
    parameters, as are the tables [MOCK_VIDEOS] and [TRANSLATIONS] of
    [./constants]. *)

From Stdlib Require Import ZArith List String Ascii Bool Lia Permutation.
From stdpp Require Import base option gmap strings.
Import ListNotations.

Local Open Scope string_scope.
Local Open Scope Z_scope.

(** ** Data model ([src/types.ts]) *)

Record Video := mkVideo {
  id : Z;
  url : string;
  thumbnailUrl : string;
  title : string;
  description : string;
  price : Z;
  category : string
}.

Record User := mkUser {
  name : string;
  email : string;
  avatarUrl : string
}.

Inductive ModalType := SignIn | SignUp.

(** [Theme] is a string enum: at run time a theme is the string itself, and
    the initialiser of [theme] casts whatever string is stored. *)
Module Theme.
Definition Light : string := "light".
Definition Dark : string := "dark".
End Theme.

(** ** Playlist ([togglePlaylist], [isVideoInPlaylist]) *)

(** [playlist.some(video => video.id === videoId)] *)
Definition isVideoInPlaylist (playlist : list Video) (videoId : Z) : bool :=
  existsb (fun video => id video =? videoId) playlist.

(** The updater passed to [setPlaylist] by [togglePlaylist]. *)
Definition togglePlaylist (currentPlaylist : list Video) (video : Video)
  : list Video :=
  let exists_ := existsb (fun v => id v =? id video) currentPlaylist in
  if exists_
  then List.filter (fun v => negb (id v =? id video)) currentPlaylist
  else currentPlaylist ++ [video].

(** Number of entries of a playlist that carry a given id. *)
Definition count_id (i : Z) (P : list Video) : nat :=
  List.length (List.filter (fun v => id v =? i) P).

(** The ids of a playlist, in order. *)
Definition ids (P : list Video) : list Z := List.map id P.

(** ** Strings of the host *)

(** [s.includes(t)]: [t] occurs in [s] as a contiguous run of characters. *)
Fixpoint includes (s t : string) : bool :=
  String.prefix t s ||
  match s with
  | EmptyString => false
  | String _ r => includes r t
  end.

(** [t] occurs in [s]: some characters, then [t], then the rest. *)
Definition substring_of (t s : string) : Prop :=
  exists pre post, s = (pre ++ t ++ post)%string.

Lemma prefix_app (t s : string) :
  String.prefix t s = true <-> exists post, s = (t ++ post)%string.
Proof.
  revert s. induction t as [|a t IH]; intros s; simpl.
  - split; [intros _; now exists s | intros _; now destruct s].
  - destruct s as [|b s].
    + split; [discriminate | intros [post H]; discriminate H].
    + simpl. destruct (ascii_dec a b) as [Hab|Hne].
      * rewrite IH. split; intros [post H]; exists post.
        -- now rewrite H, Hab.
        -- now inversion H.
      * split; [discriminate | intros [post H]]. inversion H. congruence.
Qed.

Lemma includes_substring_of (s t : string) :
  includes s t = true <-> substring_of t s.
Proof.
  unfold substring_of. induction s as [|a s IH].
  - cbn [includes]. rewrite orb_false_r, prefix_app. split.
    + intros [post H]. now exists EmptyString, post.
    + intros ([|b pre] & post & H); [now exists post | discriminate H].
  - cbn [includes]. rewrite orb_true_iff, IH, prefix_app. split.
    + intros [[post H] | (pre & post & H)].
      * now exists EmptyString, post.
      * exists (String a pre), post. simpl. now rewrite H.
    + intros ([|b pre] & post & H).
      * left. now exists post.
      * right. exists pre, post. now inversion H.
Qed.

#[local] Instance substring_of_dec (t s : string) : Decision (substring_of t s).
Proof.
  destruct (includes s t) eqn:E.
  - left. now apply includes_substring_of.
  - right. intro H. apply includes_substring_of in H. congruence.
Defined.

(** JavaScript truthiness of a string: only the empty string is falsy. *)
Definition truthy_string (s : string) : bool :=
  match s with
  | EmptyString => false
  | String _ _ => true
  end.

(** Truthiness of a [string | null]. *)
Definition truthy_opt (o : option string) : bool :=
  match o with
  | Some s => truthy_string s
  | None => false
  end.

(** Lower-casing of the ASCII letters, used as the host function in the
    examples; the theorems hold for every [toLowerCase]. *)
Definition ascii_toLower (c : ascii) : ascii :=
  let n := nat_of_ascii c in
  if ((65 <=? n) && (n <=? 90))%nat then ascii_of_nat (n + 32) else c.

Fixpoint ascii_toLowerCase (s : string) : string :=
  match s with
  | EmptyString => EmptyString
  | String c r => String (ascii_toLower c) (ascii_toLowerCase r)
  end.

(** ** [JSON.parse]: which texts it accepts

    The grammar of JSON texts (ECMA-404), on the characters of the text.
    Every function returns what is left of the text after the phrase it
    reads, or [None] when the text does not start with such a phrase. *)

Definition is_digit (c : ascii) : bool :=
  let n := nat_of_ascii c in ((48 <=? n) && (n <=? 57))%nat.

Definition is_hex (c : ascii) : bool :=
  let n := nat_of_ascii c in
  (is_digit c || ((65 <=? n) && (n <=? 70)) || ((97 <=? n) && (n <=? 102)))%nat.

(** Space, tab, line feed, carriage return. *)
Definition is_whitespace (c : ascii) : bool :=
  let n := nat_of_ascii c in
  ((n =? 32) || (n =? 9) || (n =? 10) || (n =? 13))%nat.

Fixpoint skip_whitespace (s : string) : string :=
  match s with
  | String c r => if is_whitespace c then skip_whitespace r else s
  | EmptyString => s
  end.

Fixpoint skip_digits (s : string) : string :=
  match s with
  | String c r => if is_digit c then skip_digits r else s
  | EmptyString => s
  end.

(** One digit or more. *)
Definition json_digits (s : string) : option string :=
  match s with
  | String c r => if is_digit c then Some (skip_digits r) else None
  | EmptyString => None
  end.

(** An optional fraction: a dot and digits. *)
Definition json_fraction (s : string) : option string :=
  match s with
  | String "."%char r => json_digits r
  | _ => Some s
  end.

(** An optional exponent: [e] or [E], an optional sign, digits. *)
Definition json_exponent (s : string) : option string :=
  match s with
  | String c r =>
      if Ascii.eqb c "e" || Ascii.eqb c "E"
      then match r with
           | String sign r' =>
               if Ascii.eqb sign "+" || Ascii.eqb sign "-"
               then json_digits r' else json_digits r
           | EmptyString => None
           end
      else Some s
  | EmptyString => Some s
  end.

(** A number: an optional minus, then 0 or digits that do not start with
    0, then the optional fraction and exponent. *)
Definition json_number (s : string) : option string :=
  let unsigned := match s with
                  | String "-"%char r => r
                  | _ => s
                  end in
  match unsigned with
  | String c r =>
      let after_integer :=
        if Ascii.eqb c "0" then Some r
        else if is_digit c then Some (skip_digits r) else None in
      match after_integer with
      | Some s1 =>
          match json_fraction s1 with
          | Some s2 => json_exponent s2
          | None => None
          end
      | None => None
      end
  | EmptyString => None
  end.

Definition quote : ascii := ascii_of_nat 34.
Definition backslash : ascii := ascii_of_nat 92.

(** The characters of a string after its opening quote, up to and with
    the closing quote. *)
Fixpoint json_string_body (s : string) : option string :=
  match s with
  | EmptyString => None
  | String c r =>
      if Ascii.eqb c quote then Some r
      else if Ascii.eqb c backslash then
        match r with
        | String e r' =>
            if Ascii.eqb e quote || Ascii.eqb e backslash || Ascii.eqb e "/"
               || Ascii.eqb e "b" || Ascii.eqb e "f" || Ascii.eqb e "n"
               || Ascii.eqb e "r" || Ascii.eqb e "t"
            then json_string_body r'
            else if Ascii.eqb e "u" then
              match r' with
              | String h1 (String h2 (String h3 (String h4 r''))) =>
                  if is_hex h1 && is_hex h2 && is_hex h3 && is_hex h4
                  then json_string_body r'' else None
              | _ => None
              end
            else None
        | EmptyString => None
        end
      else if (nat_of_ascii c <? 32)%nat then None
      else json_string_body r
  end.

(** The text starts with the given word. *)
Fixpoint json_word (word s : string) : option string :=
  match word, s with
  | EmptyString, _ => Some s
  | String a word', String b s' =>
      if Ascii.eqb a b then json_word word' s' else None
  | String _ _, EmptyString => None
  end.

(** What reading a value gives: the rest of the text, or no value at this
    place, or no answer because the bound on nested calls was reached. *)
Inductive Parsed :=
| Rest (rest : string)
| Reject
| OutOfFuel.

Definition parsed_of (o : option string) : Parsed :=
  match o with
  | Some rest => Rest (skip_whitespace rest)
  | None => Reject
  end.

(** Optional whitespace and the given closing character: an array or an
    object without content. *)
Definition json_close (close : ascii) (s : string) : option string :=
  match skip_whitespace s with
  | String c r => if Ascii.eqb c close then Some r else None
  | EmptyString => None
  end.

(** A value between optional whitespace; the elements of an array after
    its bracket; the members of an object after its brace.  [fuel] bounds
    the nesting of the calls. *)
Fixpoint json_value (fuel : nat) (s : string) : Parsed :=
  match fuel with
  | O => OutOfFuel
  | S fuel' =>
      match skip_whitespace s with
      | EmptyString => Reject
      | String c r as s' =>
          if Ascii.eqb c quote then parsed_of (json_string_body r)
          else if Ascii.eqb c "[" then
            match json_close "]" r with
            | Some r' => Rest (skip_whitespace r')
            | None => json_elements fuel' r
            end
          else if Ascii.eqb c "{" then
            match json_close "}" r with
            | Some r' => Rest (skip_whitespace r')
            | None => json_members fuel' r
            end
          else if Ascii.eqb c "t" then parsed_of (json_word "rue" r)
          else if Ascii.eqb c "f" then parsed_of (json_word "alse" r)
          else if Ascii.eqb c "n" then parsed_of (json_word "ull" r)
          else parsed_of (json_number s')
      end
  end
with json_elements (fuel : nat) (s : string) : Parsed :=
  match fuel with
  | O => OutOfFuel
  | S fuel' =>
      match json_value fuel' s with
      | Rest (String c r) =>
          if Ascii.eqb c "," then json_elements fuel' r
          else if Ascii.eqb c "]" then Rest (skip_whitespace r)
          else Reject
      | Rest EmptyString => Reject
      | Reject => Reject
      | OutOfFuel => OutOfFuel
      end
  end
with json_members (fuel : nat) (s : string) : Parsed :=
  match fuel with
  | O => OutOfFuel
  | S fuel' =>
      match skip_whitespace s with
      | String q r =>
          if Ascii.eqb q quote then
            match parsed_of (json_string_body r) with
            | Rest (String colon r') =>
                if Ascii.eqb colon ":" then
                  match json_value fuel' r' with
                  | Rest (String c r'') =>
                      if Ascii.eqb c "," then json_members fuel' r''
                      else if Ascii.eqb c "}" then Rest (skip_whitespace r'')
                      else Reject
                  | Rest EmptyString => Reject
                  | Reject => Reject
                  | OutOfFuel => OutOfFuel
                  end
                else Reject
            | _ => Reject
            end
          else Reject
      | EmptyString => Reject
      end
  end.

(** Fuel that is enough for a text: two nested calls for each character,
    and one. *)
Definition json_fuel (text : string) : nat := 2 * String.length text + 1.

(** [JSON.parse(text)] returns a value: the text is one value and nothing
    more.  Otherwise it throws a [SyntaxError]. *)
Definition json_text (text : string) : bool :=
  match json_value (json_fuel text) text with
  | Rest EmptyString => true
  | _ => false
  end.

(** ** Filter pipeline (the body of the timer callback of the filter effect) *)

Definition myPlaylist : string := "myPlaylist".

Definition matchesQuery (toLowerCase : string -> string)
  (lowercasedQuery : string) (v : Video) : bool :=
  includes (toLowerCase (title v)) lowercasedQuery
  || includes (toLowerCase (description v)) lowercasedQuery.

Definition filterVideos (toLowerCase : string -> string)
  (MOCK_VIDEOS : list Video)
  (searchQuery : string) (selectedCategory : option string)
  (playlist : list Video) : list Video :=
  let filteredVideos :=
    if bool_decide (selectedCategory = Some myPlaylist)
    then playlist
    else
      let filteredVideos := MOCK_VIDEOS in
      if truthy_opt selectedCategory
      then List.filter
             (fun v => bool_decide (Some (category v) = selectedCategory))
             filteredVideos
      else filteredVideos in
  if truthy_string searchQuery
  then
    let lowercasedQuery := toLowerCase searchQuery in
    List.filter (matchesQuery toLowerCase lowercasedQuery) filteredVideos
  else filteredVideos.

(** *** The pipeline in the words of the specification *)

(** The text test of the pipeline: the lower-cased title or the lower-cased
    description holds the lower-cased query. *)
Definition mentions (toLowerCase : string -> string) (query : string)
  (v : Video) : Prop :=
  substring_of (toLowerCase query) (toLowerCase (title v)) \/
  substring_of (toLowerCase query) (toLowerCase (description v)).

(** The pipeline as the specification words it: the playlist under the
    sentinel, else the catalog narrowed to the selected category when there
    is one; then the text test when the query is not empty. *)
Definition pipeline_as_specified (toLowerCase : string -> string)
  (catalog : list Video) (query : string) (selected : option string)
  (playlist : list Video) : list Video :=
  let base :=
    match selected with
    | Some c => if decide (c = myPlaylist) then playlist
                else filter (fun v => category v = c) catalog
    | None => catalog
    end in
  if decide (query = "") then base
  else filter (mentions toLowerCase query) base.

(** The same, with the empty string counted as no selection. *)
Definition pipeline (toLowerCase : string -> string)
  (catalog : list Video) (query : string) (selected : option string)
  (playlist : list Video) : list Video :=
  let base :=
    match selected with
    | Some c => if decide (c = myPlaylist) then playlist
                else if decide (c = "") then catalog
                else filter (fun v => category v = c) catalog
    | None => catalog
    end in
  if decide (query = "") then base
  else filter (mentions toLowerCase query) base.

(** ** Translation resolver ([t]) *)

(** Values found in the [TRANSLATIONS] table of [./constants].  An array is
    an object whose property names are its indices and "length".  The
    inherited properties of a plain object ("constructor", "toString",
    "__proto__", ...) are left out of [props]: through them the walk only
    reaches functions, [null] and [Object.prototype], never a string and
    never a node with a string below it, so for [t] they behave like
    absent properties. *)
#[local] Set Warnings "-register-all".

Inductive JSValue :=
| JUndefined
| JNull
| JBoolean (b : bool)
| JNumber (n : Z)
| JString (s : string)
| JObject (props : list (string * JSValue)).

(** [typeof v === 'object'] *)
Definition typeof_object (v : JSValue) : bool :=
  match v with
  | JNull | JObject _ => true
  | _ => false
  end.

(** Truthiness of a value, as tested by [result && ...]. *)
Definition truthy (v : JSValue) : bool :=
  match v with
  | JUndefined | JNull => false
  | JBoolean b => b
  | JNumber n => negb (n =? 0)
  | JString s => truthy_string s
  | JObject _ => true
  end.

(** Property lookup in the list of properties of an object.  An object has
    each property name once; the first entry found stands for it. *)
Fixpoint assoc (k : string) (props : list (string * JSValue))
  : option JSValue :=
  match props with
  | [] => None
  | (k', v) :: rest => if String.eqb k k' then Some v else assoc k rest
  end.

(** [k in v], for a [v] that passed the two tests before it. *)
Definition has_property (k : string) (v : JSValue) : bool :=
  match v with
  | JObject props => bool_decide (is_Some (assoc k props))
  | _ => false
  end.

(** [v[k]] *)
Definition get_property (k : string) (v : JSValue) : JSValue :=
  match v with
  | JObject props => default JUndefined (assoc k props)
  | _ => JUndefined
  end.

(** [key.split('.')]: the segments between the dots; never empty. *)
Fixpoint split_dot (key : string) : list string :=
  match key with
  | EmptyString => [EmptyString]
  | String c rest =>
      if Ascii.eqb c "."%char
      then EmptyString :: split_dot rest
      else match split_dot rest with
           | seg :: segs => String c seg :: segs
           | [] => [String c EmptyString]
           end
  end.

(** The guard of both loops:
    [result && typeof result === 'object' && k in result]. *)
Definition can_descend (k : string) (result : JSValue) : bool :=
  truthy result && typeof_object result && has_property k result.

(** First loop of [t]: a failed guard leaves [undefined] and breaks. *)
Fixpoint walk_language (result : JSValue) (keys : list string) : JSValue :=
  match keys with
  | [] => result
  | k :: keys' =>
      if can_descend k result
      then walk_language (get_property k result) keys'
      else JUndefined
  end.

(** Second loop of [t] and the line after it: a failed guard returns the
    key at once, a walk that ends returns the value when it is a string
    and the key otherwise. *)
Fixpoint walk_fallback (key : string) (fallbackResult : JSValue)
  (keys : list string) : string :=
  match keys with
  | [] => match fallbackResult with
          | JString s => s
          | _ => key
          end
  | k :: keys' =>
      if can_descend k fallbackResult
      then walk_fallback key (get_property k fallbackResult) keys'
      else key
  end.

(** [t], with the [TRANSLATIONS] object and the current [language]. *)
Definition t (TRANSLATIONS : JSValue) (language : string) (key : string)
  : string :=
  let keys := split_dot key in
  let result := walk_language (get_property language TRANSLATIONS) keys in
  match result with
  | JString s => s
  | _ => walk_fallback key (get_property "en" TRANSLATIONS) keys
  end.

(** The resolver as the specification words it: one walk, which fails
    when a node is not a keyed mapping, lacks the segment, or ends on a
    value that is not a string. *)
Fixpoint resolve_walk (node : JSValue) (segments : list string)
  : option string :=
  match segments with
  | [] => match node with
          | JString s => Some s
          | _ => None
          end
  | seg :: segments' =>
      match node with
      | JObject props =>
          match assoc seg props with
          | Some child => resolve_walk child segments'
          | None => None
          end
      | _ => None
      end
  end.

Definition dictionary_of (dictionaries : JSValue) (language : string)
  : JSValue :=
  get_property language dictionaries.

Definition resolve (dictionaries : JSValue) (language key : string)
  : string :=
  match resolve_walk (dictionary_of dictionaries language) (split_dot key) with
  | Some s => s
  | None =>
      match resolve_walk (dictionary_of dictionaries "en") (split_dot key) with
      | Some s => s
      | None => key
      end
  end.

(** ** Reading [localStorage] (the [useState] initialisers) *)

(** [localStorage]: [getItem] is the lookup [storage !! key], with [None]
    for JavaScript's [null]. *)
Abbreviation Storage := (gmap string string).

Definition getItem (storage : Storage) (key : string) : option string :=
  storage !! key.

(** How the evaluation of an expression ends: with a value, or with a
    [SyntaxError] thrown by [JSON.parse] and not caught. *)
Inductive Completion (A : Type) :=
| Normal (value : A)
| Throw.
Arguments Normal {A} value.
Arguments Throw {A}.

(** What the host contributes beyond the grammar: lower-casing, and the
    value [JSON.parse] builds from a text it accepts, read at the type the
    code gives it ([User | null] for the user, [Video[]] for the
    playlist). *)
Record Host := mkHost {
  toLowerCase : string -> string;
  user_of_json : string -> option User;
  playlist_of_json : string -> list Video
}.

(** [JSON.parse(text)]; [None] is the [SyntaxError] thrown on a text that
    is not JSON. *)
Definition JSON_parse {A : Type} (value_of : string -> A) (text : string)
  : option A :=
  if json_text text then Some (value_of text) else None.

(** [stored || fallback] on a [string | null]. *)
Definition or_default (stored : option string) (fallback : string) : string :=
  match stored with
  | Some s => if truthy_string s then s else fallback
  | None => fallback
  end.

(** [localStorage.getItem('isLoggedIn') === 'true'] *)
Definition init_isLoggedIn (storage : Storage) : bool :=
  bool_decide (getItem storage "isLoggedIn" = Some "true").

(** [savedUser ? JSON.parse(savedUser) : null], with no handler around it. *)
Definition init_user (h : Host) (storage : Storage) : Completion (option User) :=
  let savedUser := getItem storage "user" in
  match savedUser with
  | Some text =>
      if truthy_string text
      then match JSON_parse (user_of_json h) text with
           | Some u => Normal u
           | None => Throw
           end
      else Normal None
  | None => Normal None
  end.

Definition init_theme (storage : Storage) : string :=
  or_default (getItem storage "theme") Theme.Dark.

Definition init_language (storage : Storage) : string :=
  or_default (getItem storage "language") "en".

(** [localStorage.getItem('isAutoplayEnabled') !== 'false'] *)
Definition init_isAutoplayEnabled (storage : Storage) : bool :=
  negb (bool_decide (getItem storage "isAutoplayEnabled" = Some "false")).

Definition init_deviceView (storage : Storage) : string :=
  or_default (getItem storage "deviceView") "desktop".

Definition parse_failure_message : string :=
  "Failed to parse playlist from localStorage".

(** The playlist initialiser: the same read inside [try], whose handler
    writes to the console and returns the empty list.  The second
    component is what was written to the console. *)
Definition init_playlist (h : Host) (storage : Storage)
  : list Video * list string :=
  let savedPlaylist := getItem storage "playlist" in
  match savedPlaylist with
  | Some text =>
      if truthy_string text
      then match JSON_parse (playlist_of_json h) text with
           | Some l => (l, [])
           | None => ([], [parse_failure_message])
           end
      else ([], [])
  | None => ([], [])
  end.

(** ** Application state and intent handlers *)

Record AppState := mkApp {
  isLoggedIn : bool;
  user : option User;
  theme : string;
  language : string;
  isAutoplayEnabled : bool;
  deviceView : string;
  playlist : list Video;
  isSidebarCollapsed : bool;
  selectedVideo : option Video;
  activeModal : option ModalType;
  videos : list Video;
  searchQuery : string;
  selectedCategory : option string
}.

(** The first render: every initialiser in the order of the source.  The
    user initialiser is the only one that can throw; when it does the
    component has no state. *)
Definition init (h : Host) (storage : Storage) : Completion AppState :=
  let isLoggedIn0 := init_isLoggedIn storage in
  match init_user h storage with
  | Throw => Throw
  | Normal user0 =>
      Normal {| isLoggedIn := isLoggedIn0;
                user := user0;
                theme := init_theme storage;
                language := init_language storage;
                isAutoplayEnabled := init_isAutoplayEnabled storage;
                deviceView := init_deviceView storage;
                playlist := fst (init_playlist h storage);
                isSidebarCollapsed := false;
                selectedVideo := None;
                activeModal := None;
                videos := [];
                searchQuery := "";
                selectedCategory := None |}
  end.

Definition janeDoe : User :=
  {| name := "Jane Doe";
     email := "jane.doe@example.com";
     avatarUrl := "https://picsum.photos/seed/user/100/100" |}.

(** State updates, one per setter. *)
Definition setUser (u : option User) (s : AppState) : AppState :=
  mkApp (isLoggedIn s) u (theme s) (language s) (isAutoplayEnabled s)
    (deviceView s) (playlist s) (isSidebarCollapsed s) (selectedVideo s)
    (activeModal s) (videos s) (searchQuery s) (selectedCategory s).

Definition setIsLoggedIn (b : bool) (s : AppState) : AppState :=
  mkApp b (user s) (theme s) (language s) (isAutoplayEnabled s)
    (deviceView s) (playlist s) (isSidebarCollapsed s) (selectedVideo s)
    (activeModal s) (videos s) (searchQuery s) (selectedCategory s).

Definition setTheme (f : string -> string) (s : AppState) : AppState :=
  mkApp (isLoggedIn s) (user s) (f (theme s)) (language s)
    (isAutoplayEnabled s) (deviceView s) (playlist s) (isSidebarCollapsed s)
    (selectedVideo s) (activeModal s) (videos s) (searchQuery s)
    (selectedCategory s).

Definition setLanguage (l : string) (s : AppState) : AppState :=
  mkApp (isLoggedIn s) (user s) (theme s) l (isAutoplayEnabled s)
    (deviceView s) (playlist s) (isSidebarCollapsed s) (selectedVideo s)
    (activeModal s) (videos s) (searchQuery s) (selectedCategory s).

Definition setIsAutoplayEnabled (f : bool -> bool) (s : AppState) : AppState :=
  mkApp (isLoggedIn s) (user s) (theme s) (language s)
    (f (isAutoplayEnabled s)) (deviceView s) (playlist s)
    (isSidebarCollapsed s) (selectedVideo s) (activeModal s) (videos s)
    (searchQuery s) (selectedCategory s).

Definition setDeviceView (d : string) (s : AppState) : AppState :=
  mkApp (isLoggedIn s) (user s) (theme s) (language s) (isAutoplayEnabled s)
    d (playlist s) (isSidebarCollapsed s) (selectedVideo s) (activeModal s)
    (videos s) (searchQuery s) (selectedCategory s).

Definition setPlaylist (f : list Video -> list Video) (s : AppState)
  : AppState :=
  mkApp (isLoggedIn s) (user s) (theme s) (language s) (isAutoplayEnabled s)
    (deviceView s) (f (playlist s)) (isSidebarCollapsed s) (selectedVideo s)
    (activeModal s) (videos s) (searchQuery s) (selectedCategory s).

Definition setIsSidebarCollapsed (f : bool -> bool) (s : AppState)
  : AppState :=
  mkApp (isLoggedIn s) (user s) (theme s) (language s) (isAutoplayEnabled s)
    (deviceView s) (playlist s) (f (isSidebarCollapsed s)) (selectedVideo s)
    (activeModal s) (videos s) (searchQuery s) (selectedCategory s).

Definition setSelectedVideo (v : option Video) (s : AppState) : AppState :=
  mkApp (isLoggedIn s) (user s) (theme s) (language s) (isAutoplayEnabled s)
    (deviceView s) (playlist s) (isSidebarCollapsed s) v (activeModal s)
    (videos s) (searchQuery s) (selectedCategory s).

Definition setActiveModal (m : option ModalType) (s : AppState) : AppState :=
  mkApp (isLoggedIn s) (user s) (theme s) (language s) (isAutoplayEnabled s)
    (deviceView s) (playlist s) (isSidebarCollapsed s) (selectedVideo s) m
    (videos s) (searchQuery s) (selectedCategory s).

Definition setVideos (l : list Video) (s : AppState) : AppState :=
  mkApp (isLoggedIn s) (user s) (theme s) (language s) (isAutoplayEnabled s)
    (deviceView s) (playlist s) (isSidebarCollapsed s) (selectedVideo s)
    (activeModal s) l (searchQuery s) (selectedCategory s).

Definition setSearchQuery (q : string) (s : AppState) : AppState :=
  mkApp (isLoggedIn s) (user s) (theme s) (language s) (isAutoplayEnabled s)
    (deviceView s) (playlist s) (isSidebarCollapsed s) (selectedVideo s)
    (activeModal s) (videos s) q (selectedCategory s).

Definition setSelectedCategory (c : option string) (s : AppState) : AppState :=
  mkApp (isLoggedIn s) (user s) (theme s) (language s) (isAutoplayEnabled s)
    (deviceView s) (playlist s) (isSidebarCollapsed s) (selectedVideo s)
    (activeModal s) (videos s) (searchQuery s) c.

(** [handleLogin]: the credentials are written to the console and not
    looked at. *)
Definition handleLogin (s : AppState) : AppState :=
  setActiveModal None (setIsLoggedIn true (setUser (Some janeDoe) s)).

(** [handleLogout]: the test reads the [selectedCategory] of the render
    the handler was made in. *)
Definition handleLogout (s : AppState) : AppState :=
  let s' := setIsLoggedIn false (setUser None s) in
  if bool_decide (selectedCategory s = Some myPlaylist)
  then setSelectedCategory None s'
  else s'.

Definition toggleTheme (s : AppState) : AppState :=
  setTheme (fun prev => if String.eqb prev Theme.Light
                        then Theme.Dark else Theme.Light) s.

Definition toggleAutoplay (s : AppState) : AppState :=
  setIsAutoplayEnabled negb s.

(** Everything the rendering layer can ask of the component, and the timer
    callback of the filter effect. *)
Inductive Intent :=
| Login
| Logout
| VideoSelect (video : Video)
| GoBackToGrid
| OpenModal (modalType : ModalType)
| CloseModal
| SwitchToSignUp
| SwitchToSignIn
| ToggleTheme
| ToggleAutoplay
| SetLanguage (l : string)
| SearchChange (q : string)
| CategorySelect (c : option string)
| TogglePlaylist (video : Video)
| SetDeviceView (d : string)
| ToggleCollapse
| TimerFired (filtered : list Video).

Definition handle (i : Intent) (s : AppState) : AppState :=
  match i with
  | Login => handleLogin s
  | Logout => handleLogout s
  | VideoSelect video => setSelectedVideo (Some video) s
  | GoBackToGrid => setSelectedVideo None s
  | OpenModal modalType => setActiveModal (Some modalType) s
  | CloseModal => setActiveModal None s
  | SwitchToSignUp => setActiveModal (Some SignUp) s
  | SwitchToSignIn => setActiveModal (Some SignIn) s
  | ToggleTheme => toggleTheme s
  | ToggleAutoplay => toggleAutoplay s
  | SetLanguage l => setLanguage l s
  | SearchChange q => setSearchQuery q s
  | CategorySelect c => setSelectedCategory c s
  | TogglePlaylist video => setPlaylist (fun cur => togglePlaylist cur video) s
  | SetDeviceView d => setDeviceView d s
  | ToggleCollapse => setIsSidebarCollapsed negb s
  | TimerFired filtered => setVideos filtered s
  end.

(** The states the component goes through from a first state. *)
Inductive reachable_from (s0 : AppState) : AppState -> Prop :=
| reach_first : reachable_from s0 s0
| reach_step s i : reachable_from s0 s -> reachable_from s0 (handle i s).

(** The flag and the profile agree. *)
Definition session_consistent (s : AppState) : Prop :=
  isLoggedIn s = true <-> user s <> None.

(** ** The filter effect and the host's timers *)

Module Debounce.

(** The three dependencies of the effect, as the closure of one render
    holds them. *)
Record Criteria := mkCriteria {
  c_searchQuery : string;
  c_selectedCategory : option string;
  c_playlist : list Video
}.

(** A timer of the host: its id, the time at which it is due and the
    values captured by its callback. *)
Record Timer := mkTimer {
  timer_id : nat;
  deadline : nat;
  captured : Criteria
}.

(** One run of the timer callback: when it ran, the criteria it used and
    the criteria of the component at that time. *)
Record Recomputation := mkRecomputation {
  at_time : nat;
  used : Criteria;
  latest : Criteria
}.

Record Runtime := mkRuntime {
  clock : nat;
  nextTimer : nat;
  timers : list Timer;
  cleanup : option nat;
  current : Criteria;
  visible : list Video;
  recomputations : list Recomputation
}.

(** The quiet period: the second argument of [setTimeout]. *)
Definition delay : nat := 300.

(** [setTimeout(callback, ms)]: a fresh id, due [ms] from now. *)
Definition setTimeout (c : Criteria) (ms : nat) (rt : Runtime)
  : nat * Runtime :=
  let i := nextTimer rt in
  (i, mkRuntime (clock rt) (S i)
        (timers rt ++ [mkTimer i (clock rt + ms) c])
        (cleanup rt) (current rt) (visible rt) (recomputations rt)).

(** [clearTimeout(timer)]: the timer is dropped; an id that is not
    pending is ignored. *)
Definition clearTimeout (i : nat) (rt : Runtime) : Runtime :=
  mkRuntime (clock rt) (nextTimer rt)
    (List.filter (fun tm => negb (timer_id tm =? i)%nat) (timers rt))
    (cleanup rt) (current rt) (visible rt) (recomputations rt).

(** One run of the effect after a render: the cleanup returned by the
    previous run, then the body, whose return value is the next cleanup. *)
Definition run_effect (rt : Runtime) : Runtime :=
  let rt1 := match cleanup rt with
             | Some i => clearTimeout i rt
             | None => rt
             end in
  let '(timer, rt2) := setTimeout (current rt1) delay rt1 in
  mkRuntime (clock rt2) (nextTimer rt2) (timers rt2) (Some timer)
    (current rt2) (visible rt2) (recomputations rt2).

(** A render in which a dependency has changed. *)
Definition trigger (c : Criteria) (rt : Runtime) : Runtime :=
  run_effect (mkRuntime (clock rt) (nextTimer rt) (timers rt) (cleanup rt)
                c (visible rt) (recomputations rt)).

(** The first render. *)
Definition mount (c : Criteria) : Runtime :=
  run_effect (mkRuntime 0 0 [] None c [] []).

(** Tear-down: the last cleanup runs. *)
Definition unmount (rt : Runtime) : Runtime :=
  match cleanup rt with
  | Some i => clearTimeout i rt
  | None => rt
  end.

(** The same run-time state at another time. *)
Definition at_clock (n : nat) (rt : Runtime) : Runtime :=
  mkRuntime n (nextTimer rt) (timers rt) (cleanup rt) (current rt)
    (visible rt) (recomputations rt).

(** The state right after a change: one timer, set now. *)
Definition armed (rt : Runtime) : Prop :=
  exists tm, timers rt = [tm] /\ cleanup rt = Some (timer_id tm) /\
             captured tm = current rt /\
             deadline tm = (clock rt + delay)%nat.

Section WithHost.
Context (h : Host) (MOCK_VIDEOS : list Video).

(** The visible set computed from given criteria. *)
Definition filtered (c : Criteria) : list Video :=
  filterVideos (toLowerCase h) MOCK_VIDEOS
    (c_searchQuery c) (c_selectedCategory c) (c_playlist c).

(** The timer callback: filter with the captured values, [setVideos]. *)
Definition fire (tm : Timer) (rt : Runtime) : Runtime :=
  let c := captured tm in
  mkRuntime (clock rt) (nextTimer rt) (timers rt) (cleanup rt)
    (current rt) (filtered c)
    (recomputations rt ++ [mkRecomputation (clock rt) c (current rt)]).

(** One unit of time passes; the timers that are due run in the order
    in which they were set. *)
Definition tick (rt : Runtime) : Runtime :=
  let now := S (clock rt) in
  let due := List.filter (fun tm => (deadline tm <=? now)%nat) (timers rt) in
  let rest :=
    List.filter (fun tm => negb (deadline tm <=? now)%nat) (timers rt) in
  fold_left (fun r tm => fire tm r) due
    (mkRuntime now (nextTimer rt) rest (cleanup rt) (current rt)
       (visible rt) (recomputations rt)).

Fixpoint advance (d : nat) (rt : Runtime) : Runtime :=
  match d with
  | O => rt
  | S d' => advance d' (tick rt)
  end.

(** A burst: after the first change, each further change comes [gap]
    units after the one before it. *)
Definition run_burst (burst : list (nat * Criteria)) (rt : Runtime)
  : Runtime :=
  fold_left (fun r gc => trigger (snd gc) (advance (fst gc) r)) burst rt.

Inductive reachable : Runtime -> Prop :=
| reach_mount c : reachable (mount c)
| reach_trigger c rt : reachable rt -> reachable (trigger c rt)
| reach_tick rt : reachable rt -> reachable (tick rt).

(** At most one timer is pending; it is the one the cleanup holds, it
    captured the current criteria, and it is not yet due.  No
    recomputation used criteria other than the current ones. *)
Definition well_formed (rt : Runtime) : Prop :=
  (timers rt = [] \/
   exists tm, timers rt = [tm] /\ cleanup rt = Some (timer_id tm) /\
              captured tm = current rt /\ (clock rt < deadline tm)%nat /\
              (deadline tm <= clock rt + delay)%nat) /\
  Forall (fun r => used r = latest r) (recomputations rt).
End WithHost.

End Debounce.

(** ** Persistence effects (the [useEffect]s that write [localStorage]) *)

(** [JSON.stringify], at the two types it is used at. *)
Record Serializer := mkSerializer {
  JSON_stringify_user : User -> string;
  JSON_stringify_playlist : list Video -> string
}.

(** [String(b)] *)
Definition String_of_bool (b : bool) : string :=
  if b then "true" else "false".

Definition setItem (key value : string) (storage : Storage) : Storage :=
  <[key := value]> storage.

Definition removeItem (key : string) (storage : Storage) : Storage :=
  delete key storage.

(** The six effects that write the storage, in the order of the source. *)
Inductive Effect :=
| ThemeEffect
| LanguageEffect
| SessionEffect
| AutoplayEffect
| DeviceViewEffect
| PlaylistEffect.

(** What one run of an effect does to the storage. *)
Definition run_storage_effect (ser : Serializer) (e : Effect) (s : AppState)
  (storage : Storage) : Storage :=
  match e with
  | ThemeEffect => setItem "theme" (theme s) storage
  | LanguageEffect => setItem "language" (language s) storage
  | SessionEffect =>
      let storage' :=
        setItem "isLoggedIn" (String_of_bool (isLoggedIn s)) storage in
      match user s with
      | Some u => setItem "user" (JSON_stringify_user ser u) storage'
      | None => removeItem "user" storage'
      end
  | AutoplayEffect =>
      setItem "isAutoplayEnabled" (String_of_bool (isAutoplayEnabled s))
        storage
  | DeviceViewEffect => setItem "deviceView" (deviceView s) storage
  | PlaylistEffect =>
      setItem "playlist" (JSON_stringify_playlist ser (playlist s)) storage
  end.

Definition all_effects : list Effect :=
  [ThemeEffect; LanguageEffect; SessionEffect; AutoplayEffect;
   DeviceViewEffect; PlaylistEffect].

(** After the first render every effect runs. *)
Definition persist (ser : Serializer) (s : AppState) (storage : Storage)
  : Storage :=
  fold_left (fun st e => run_storage_effect ser e s st) all_effects storage.

(** After a later render the effects run whose dependencies React finds
    changed; [rerun] says which. *)
Definition rerender (ser : Serializer) (rerun : Effect -> bool)
  (s : AppState) (storage : Storage) : Storage :=
  fold_left
    (fun st e => if rerun e then run_storage_effect ser e s st else st)
    all_effects storage.

(** The dependencies of an effect have the same values in two states. *)
Definition deps_equal (e : Effect) (old new : AppState) : Prop :=
  match e with
  | ThemeEffect => theme old = theme new
  | LanguageEffect => language old = language new
  | SessionEffect => isLoggedIn old = isLoggedIn new /\ user old = user new
  | AutoplayEffect => isAutoplayEnabled old = isAutoplayEnabled new
  | DeviceViewEffect => deviceView old = deviceView new
  | PlaylistEffect => playlist old = playlist new
  end.

(** The keys the effects write. *)
Definition persisted_keys : list string :=
  ["theme"; "language"; "isLoggedIn"; "user"; "isAutoplayEnabled";
   "deviceView"; "playlist"].

(** What the effects leave under a key: a value, nothing, or what was
    there ([None]) when no effect writes the key. *)
Definition written (ser : Serializer) (s : AppState) (key : string)
  : option (option string) :=
  if decide (key = "theme") then Some (Some (theme s))
  else if decide (key = "language") then Some (Some (language s))
  else if decide (key = "isLoggedIn")
       then Some (Some (String_of_bool (isLoggedIn s)))
  else if decide (key = "user")
       then Some (JSON_stringify_user ser <$> user s)
  else if decide (key = "isAutoplayEnabled")
       then Some (Some (String_of_bool (isAutoplayEnabled s)))
  else if decide (key = "deviceView") then Some (Some (deviceView s))
  else if decide (key = "playlist")
       then Some (Some (JSON_stringify_playlist ser (playlist s)))
  else None.

(** What is under a key once its effect has run. *)
Definition left_under (ser : Serializer) (s : AppState) (key : string)
  : option string :=
  match written ser s key with
  | Some o => o
  | None => None
  end.

(** The effect that writes a key. *)
Definition effect_of_key (key : string) : option Effect :=
  if decide (key = "theme") then Some ThemeEffect
  else if decide (key = "language") then Some LanguageEffect
  else if decide (key = "isLoggedIn") then Some SessionEffect
  else if decide (key = "user") then Some SessionEffect
  else if decide (key = "isAutoplayEnabled") then Some AutoplayEffect
  else if decide (key = "deviceView") then Some DeviceViewEffect
  else if decide (key = "playlist") then Some PlaylistEffect
  else None.

(** The other half of the theme effect: the class [dark] of the document
    element is added under the dark theme and removed under any other. *)
Definition theme_classList (theme : string) (classList : gset string)
  : gset string :=
  if String.eqb theme Theme.Dark
  then classList ∪ {["dark"]}
  else classList ∖ {["dark"]}.

(** The base of the pipeline: the playlist in the playlist view, the
    catalog in every other. *)
Definition base_list (MOCK_VIDEOS : list Video)
  (selectedCategory : option string) (playlist : list Video) : list Video :=
  if bool_decide (selectedCategory = Some myPlaylist)
  then playlist else MOCK_VIDEOS.

Definition is_object (v : JSValue) : bool :=
  match v with
  | JObject _ => true
  | _ => false
  end.

(** A text between quotes. *)
Definition quoted (s : string) : string :=
  String quote (s ++ String quote EmptyString).

(** What [JSON.stringify] gives for [janeDoe]. *)
Definition janeDoe_json : string :=
  ("{" ++ quoted "name" ++ ":" ++ quoted "Jane Doe" ++ ","
   ++ quoted "email" ++ ":" ++ quoted "jane.doe@example.com" ++ ","
   ++ quoted "avatarUrl" ++ ":"
   ++ quoted "https://picsum.photos/seed/user/100/100" ++ "}")%string.

(** A serializer and a host for the examples, right for [janeDoe] and
    for the empty playlist, the only values the examples store. *)
Definition sample_serializer : Serializer :=
  mkSerializer (fun _ => janeDoe_json) (fun _ => "[]").

Definition sample_host : Host :=
  mkHost ascii_toLowerCase (fun _ => Some janeDoe) (fun _ => []).

(** The effects that React runs again after a toggle of the theme: the
    one whose dependency is the theme. *)
Definition rerun_theme (e : Effect) : bool :=
  match e with
  | ThemeEffect => true
  | _ => false
  end.

(** ** Sample data for the examples *)

(** A host that lower-cases the ASCII letters.  The examples that use it
    read no JSON value. *)
Definition ascii_host : Host :=
  mkHost ascii_toLowerCase (fun _ => None) (fun _ => []).

Definition video_a : Video :=
  mkVideo 1 "u1" "t1" "Jazz Night" "Live set" 5 "music".
Definition video_b : Video :=
  mkVideo 2 "u2" "t2" "Finals" "The last game" 7 "sports".
Definition video_c : Video :=
  mkVideo 3 "u3" "t3" "Highlights" "Best jazz moments" 0 "".

Definition sample_translations : JSValue :=
  JObject
    [("en", JObject
              [("sidebar", JObject
                             [("home", JString "Home");
                              ("settings", JObject
                                             [("theme", JString "Theme")])]);
               ("title", JString "Videos")]);
     ("pt", JObject
              [("sidebar", JObject [("home", JString "Inicio");
                                    ("settings", JString "Ajustes")])])].

Definition state_in_playlist_view : AppState :=
  mkApp true (Some janeDoe) Theme.Dark "en" true "desktop" [video_b] false
    None None [video_b] "fin" (Some myPlaylist).

Definition anonymous_state : AppState :=
  mkApp false None Theme.Dark "en" true "desktop" [] false None None []
    "" None.

Definition criteria_of (query : string) : Debounce.Criteria :=
  Debounce.mkCriteria query None [].

(** Three changes of the query, 50 and 100 units apart. *)
Definition three_changes : list (nat * Debounce.Criteria) :=
  [(50%nat, criteria_of "ja"); (100%nat, criteria_of "jaz")].

(** * Theorems *)

(** ** Playlist *)

Section Playlist.
Implicit Types (P : list Video) (v w : Video).

Lemma existsb_id_In P i :
  existsb (fun v => id v =? i) P = true <-> In i (ids P).
Proof.
  unfold ids. rewrite existsb_exists, in_map_iff.
  split; intros (w & H1 & H2).
  - exists w. apply Z.eqb_eq in H2. auto.
  - exists w. split; [assumption | now apply Z.eqb_eq].
Qed.

Lemma existsb_id_not_In P i :
  existsb (fun v => id v =? i) P = false <-> ~ In i (ids P).
Proof.
  rewrite <- existsb_id_In. destruct (existsb _ P); split; intro H;
    try reflexivity; try discriminate; try (intro; discriminate).
  exfalso. now apply H.
Qed.

Lemma filter_other_id_absent P i :
  ~ In i (ids P) -> List.filter (fun v => negb (id v =? i)) P = P.
Proof.
  induction P as [|w P IH]; simpl; intro H; [reflexivity|].
  destruct (id w =? i) eqn:E.
  - apply Z.eqb_eq in E. exfalso. apply H. now left.
  - simpl. f_equal. apply IH. intro. apply H. now right.
Qed.

Lemma filter_other_id_ids P i :
  ~ In i (ids (List.filter (fun v => negb (id v =? i)) P)).
Proof.
  unfold ids. rewrite in_map_iff. intros (w & H1 & H2).
  apply filter_In in H2 as [_ H2]. apply negb_true_iff, Z.eqb_neq in H2.
  contradiction.
Qed.

Lemma count_id_absent P i : ~ In i (ids P) -> count_id i P = 0%nat.
Proof.
  unfold count_id. induction P as [|w P IH]; simpl; intro H; [reflexivity|].
  destruct (id w =? i) eqn:E.
  - apply Z.eqb_eq in E. exfalso. apply H. now left.
  - apply IH. intro. apply H. now right.
Qed.

Lemma count_id_app P Q i :
  count_id i (P ++ Q) = (count_id i P + count_id i Q)%nat.
Proof. unfold count_id. now rewrite List.filter_app, List.length_app. Qed.

Lemma togglePlaylist_absent P v :
  ~ In (id v) (ids P) -> togglePlaylist P v = (P ++ [v])%list.
Proof.
  intro H. unfold togglePlaylist.
  now rewrite (proj2 (existsb_id_not_In P (id v)) H).
Qed.

Lemma togglePlaylist_present P v :
  In (id v) (ids P) ->
  togglePlaylist P v = List.filter (fun w => negb (id w =? id v)) P.
Proof.
  intro H. unfold togglePlaylist.
  now rewrite (proj2 (existsb_id_In P (id v)) H).
Qed.

(** With unique ids, dropping the entries that carry the id of a member
    drops that member and nothing else. *)
Lemma filter_member_permutation P v :
  List.NoDup (ids P) -> In v P ->
  Permutation (List.filter (fun w => negb (id w =? id v)) P ++ [v]) P.
Proof.
  induction P as [|w P IH]; simpl; intros Hnd Hin; [contradiction|].
  inversion Hnd as [|? ? Hnotin Hnd']; subst.
  destruct Hin as [->|Hin].
  - rewrite Z.eqb_refl. simpl.
    rewrite (filter_other_id_absent P (id v) Hnotin).
    symmetry. apply Permutation_cons_append.
  - destruct (id w =? id v) eqn:E.
    + apply Z.eqb_eq in E. exfalso. apply Hnotin. rewrite E.
      unfold ids. now apply in_map.
    + simpl. constructor. now apply IH.
Qed.

(** Toggling a video flips what [isVideoInPlaylist] answers for it. *)
Lemma isVideoInPlaylist_toggle P v :
  isVideoInPlaylist (togglePlaylist P v) (id v)
  = negb (isVideoInPlaylist P (id v)).
Proof.
  unfold isVideoInPlaylist.
  destruct (existsb (fun w => id w =? id v) P) eqn:E.
  - apply existsb_id_In in E. rewrite (togglePlaylist_present P v E).
    apply existsb_id_not_In, filter_other_id_ids.
  - apply existsb_id_not_In in E. rewrite (togglePlaylist_absent P v E).
    apply existsb_id_In. unfold ids. rewrite map_app, in_app_iff.
    right. now left.
Qed.

Lemma togglePlaylist_absent_count P v :
  ~ In (id v) (ids P) -> count_id (id v) (togglePlaylist P v) = 1%nat.
Proof.
  intro H. rewrite (togglePlaylist_absent P v H).
  rewrite count_id_app, (count_id_absent P (id v) H).
  unfold count_id. simpl. now rewrite Z.eqb_refl.
Qed.
End Playlist.

(** C7. For every playlist [P] and every video [v] whose id is the id of no
    entry of [P], [togglePlaylist P v] is [P] with [v] appended after all
    existing entries, and the id of [v] occurs exactly once in it. *)
Theorem togglePlaylist_appends_new (P : list Video) (v : Video) :
  ~ In (id v) (ids P) ->
  togglePlaylist P v = (P ++ [v])%list /\
  count_id (id v) (togglePlaylist P v) = 1%nat.
Proof.
  intro H. split.
  - now apply togglePlaylist_absent.
  - now apply togglePlaylist_absent_count.
Qed.

(** C10. For every playlist [P], also one in which several entries share an
    id, and every video [v]: [togglePlaylist P v] holds at most one entry
    with the id of [v], and when some entry of [P] has that id none is
    left. *)
Theorem togglePlaylist_at_most_one (P : list Video) (v : Video) :
  (count_id (id v) (togglePlaylist P v) <= 1)%nat /\
  (In (id v) (ids P) -> count_id (id v) (togglePlaylist P v) = 0%nat).
Proof.
  assert (Hpresent : In (id v) (ids P) ->
                     count_id (id v) (togglePlaylist P v) = 0%nat).
  { intro H. rewrite (togglePlaylist_present P v H).
    apply count_id_absent, filter_other_id_ids. }
  split; [|exact Hpresent].
  destruct (existsb (fun w => id w =? id v) P) eqn:E.
  - apply existsb_id_In in E. rewrite (Hpresent E). lia.
  - apply existsb_id_not_In in E.
    rewrite (togglePlaylist_absent_count P v E). lia.
Qed.

(** C2, as amended.  For every playlist [P] with unique ids and every video
    [v]: when no entry of [P] has the id of [v], toggling twice gives [P]
    back; when an entry has it, toggling twice gives [P] without that entry,
    the other entries in their order, followed by [v], which holds the
    entries of [P] again when [v] is that entry. *)
Theorem togglePlaylist_twice (P : list Video) (v : Video) :
  List.NoDup (ids P) ->
  (~ In (id v) (ids P) -> togglePlaylist (togglePlaylist P v) v = P) /\
  (In (id v) (ids P) ->
   togglePlaylist (togglePlaylist P v) v
   = (List.filter (fun w => negb (id w =? id v)) P ++ [v])%list) /\
  (In v P -> Permutation (togglePlaylist (togglePlaylist P v) v) P).
Proof.
  intro Hnd.
  assert (Hpresent : In (id v) (ids P) ->
            togglePlaylist (togglePlaylist P v) v
            = (List.filter (fun w => negb (id w =? id v)) P ++ [v])%list).
  { intro H. rewrite (togglePlaylist_present P v H).
    apply togglePlaylist_absent, filter_other_id_ids. }
  split; [|split].
  - intro H. rewrite (togglePlaylist_absent P v H).
    rewrite togglePlaylist_present.
    + rewrite List.filter_app. simpl. rewrite Z.eqb_refl. simpl.
      rewrite app_nil_r. now apply filter_other_id_absent.
    + unfold ids. rewrite map_app, in_app_iff. right. now left.
  - exact Hpresent.
  - intro Hin. rewrite Hpresent.
    + now apply filter_member_permutation.
    + unfold ids. now apply in_map.
Qed.

Lemma NoDup_ids_ab : List.NoDup (ids [video_a; video_b]).
Proof.
  unfold ids; simpl. repeat constructor; simpl; intuition discriminate.
Qed.

(** C2 fails as stated: with [video_a] first in the playlist, toggling it
    twice moves it behind [video_b]. *)
Lemma togglePlaylist_twice_moves_member :
  List.NoDup (ids [video_a; video_b]) /\
  togglePlaylist (togglePlaylist [video_a; video_b] video_a) video_a
  = [video_b; video_a] /\
  togglePlaylist (togglePlaylist [video_a; video_b] video_a) video_a
  <> [video_a; video_b].
Proof.
  split; [exact NoDup_ids_ab|]. split; [reflexivity|].
  vm_compute. discriminate.
Qed.

Lemma togglePlaylist_twice_witness :
  List.NoDup (ids [video_a; video_b]) /\
  ((~ In (id video_a) (ids [video_a; video_b]) ->
    togglePlaylist (togglePlaylist [video_a; video_b] video_a) video_a
    = [video_a; video_b]) /\
   (In (id video_a) (ids [video_a; video_b]) ->
    togglePlaylist (togglePlaylist [video_a; video_b] video_a) video_a
    = (List.filter (fun w => negb (id w =? id video_a)) [video_a; video_b]
       ++ [video_a])%list) /\
   (In video_a [video_a; video_b] ->
    Permutation
      (togglePlaylist (togglePlaylist [video_a; video_b] video_a) video_a)
      [video_a; video_b])).
Proof.
  split; [exact NoDup_ids_ab|].
  apply (togglePlaylist_twice [video_a; video_b] video_a). exact NoDup_ids_ab.
Defined.

Lemma togglePlaylist_appends_new_witness :
  ~ In (id video_b) (ids [video_a]) /\
  togglePlaylist [video_a] video_b = [video_a; video_b] /\
  count_id (id video_b) (togglePlaylist [video_a] video_b) = 1%nat.
Proof.
  assert (H : ~ In (id video_b) (ids [video_a])).
  { simpl. intros [H|H]; [discriminate H | exact H]. }
  split; [exact H|].
  exact (togglePlaylist_appends_new [video_a] video_b H).
Defined.

Lemma togglePlaylist_at_most_one_witness :
  In (id video_a) (ids [video_a; video_b; video_a]) /\
  count_id (id video_a)
    (togglePlaylist [video_a; video_b; video_a] video_a) = 0%nat.
Proof.
  assert (H : In (id video_a) (ids [video_a; video_b; video_a])).
  { simpl. left. reflexivity. }
  split; [exact H|].
  exact (proj2 (togglePlaylist_at_most_one
                  [video_a; video_b; video_a] video_a) H).
Defined.

(** ** Filter pipeline *)

Lemma truthy_string_nonempty (s : string) :
  truthy_string s = true <-> s <> "".
Proof. destruct s; simpl; split; congruence. Qed.

Lemma filter_reflects {A} (f : A -> bool) (P : A -> Prop)
  `{!forall x, Decision (P x)} (l : list A) :
  (forall x, f x = true <-> P x) -> List.filter f l = filter P l.
Proof.
  intro Hf. induction l as [|x l IH]; [reflexivity|].
  simpl. rewrite filter_cons, IH.
  destruct (f x) eqn:E; destruct (decide (P x)) as [HP|HP]; try reflexivity.
  - exfalso. apply HP, Hf, E.
  - apply Hf in HP. congruence.
Qed.

Lemma matchesQuery_mentions toLowerCase query v :
  matchesQuery toLowerCase (toLowerCase query) v = true
  <-> mentions toLowerCase query v.
Proof.
  unfold matchesQuery, mentions.
  now rewrite orb_true_iff, !includes_substring_of.
Qed.

(** C1, as amended.  For every search query, selected category, playlist
    and catalog, the visible set is computed thus: under the sentinel
    [myPlaylist] the base is the playlist and the catalog is not looked at;
    otherwise the base is the catalog, narrowed to the videos of the
    selected category when a category other than the empty string is
    selected, and the whole catalog when none or the empty string is; then,
    when the query is not empty, only the entries are kept whose lower-cased
    title or description holds the lower-cased query as a substring. *)
Theorem filterVideos_pipeline (toLowerCase : string -> string)
  (catalog : list Video) (query : string) (selected : option string)
  (playlist : list Video) :
  filterVideos toLowerCase catalog query selected playlist
  = pipeline toLowerCase catalog query selected playlist.
Proof.
  unfold filterVideos, pipeline.
  set (base := if bool_decide (selected = Some myPlaylist) then _ else _).
  set (base' := match selected with Some _ => _ | None => _ end).
  assert (Hbase : base = base').
  { subst base base'. destruct selected as [c|]; [|reflexivity].
    case_bool_decide as Hc.
    - inversion Hc; subst. now rewrite decide_True.
    - rewrite decide_False by congruence. cbn [truthy_opt].
      destruct (decide (c = "")) as [->|Hne]; [reflexivity|].
      rewrite (proj2 (truthy_string_nonempty c) Hne).
      apply filter_reflects. intro v. rewrite bool_decide_eq_true.
      split; congruence. }
  rewrite Hbase. destruct (decide (query = "")) as [->|Hne]; [reflexivity|].
  rewrite (proj2 (truthy_string_nonempty query) Hne).
  apply filter_reflects. intro v. apply matchesQuery_mentions.
Qed.

(** C1 fails as stated when the empty string is the selected category: the
    catalog is not narrowed to the videos whose category is empty. *)
Lemma filterVideos_empty_category :
  filterVideos ascii_toLowerCase [video_c; video_a] "" (Some "") []
  = [video_c; video_a] /\
  pipeline_as_specified ascii_toLowerCase [video_c; video_a] "" (Some "") []
  = [video_c] /\
  filterVideos ascii_toLowerCase [video_c; video_a] "" (Some "") []
  <> pipeline_as_specified ascii_toLowerCase [video_c; video_a] "" (Some "") [].
Proof.
  split; [reflexivity|]. split; [reflexivity|].
  vm_compute. discriminate.
Qed.

(** The examples of the specification, on its two-video catalog. *)
Example filter_all :
  filterVideos ascii_toLowerCase [video_a; video_b] "" None []
  = [video_a; video_b].
Proof. reflexivity. Qed.

Example filter_sports :
  filterVideos ascii_toLowerCase [video_a; video_b] "" (Some "sports") []
  = [video_b].
Proof. reflexivity. Qed.

Example filter_jazz :
  filterVideos ascii_toLowerCase [video_a; video_b] "JAZZ" None []
  = [video_a].
Proof. reflexivity. Qed.

Example filter_myPlaylist :
  filterVideos ascii_toLowerCase [video_a; video_b] "" (Some myPlaylist)
    [video_b]
  = [video_b].
Proof. reflexivity. Qed.

(** ** Translation resolver *)

Section Resolver.
Implicit Types (node : JSValue) (keys : list string) (k key : string).

Lemma can_descend_object k node :
  can_descend k node = true <->
  exists props child, node = JObject props /\ assoc k props = Some child.
Proof.
  unfold can_descend. destruct node as [| |b|n|s|props]; simpl;
    try (rewrite ?andb_false_r, ?andb_false_l;
         split; [discriminate | intros (? & ? & ? & _); discriminate]).
  rewrite bool_decide_eq_true. split.
  - intros [child H]. now exists props, child.
  - intros (props' & child & H1 & H2). inversion H1; subst. now exists child.
Qed.

Lemma can_descend_step k node keys :
  resolve_walk node (k :: keys)
  = if can_descend k node then resolve_walk (get_property k node) keys
    else None.
Proof.
  destruct (can_descend k node) eqn:E.
  - apply can_descend_object in E as (props & child & -> & H).
    simpl. now rewrite H.
  - destruct node as [| |b|n|s|props]; try reflexivity.
    simpl. destruct (assoc k props) as [child|] eqn:H; [|reflexivity].
    exfalso. assert (can_descend k (JObject props) = true) as E'.
    { apply can_descend_object. now exists props, child. }
    congruence.
Qed.

(** The first loop ends on a string exactly when the walk succeeds. *)
Lemma walk_language_resolve_walk node keys :
  resolve_walk node keys
  = match walk_language node keys with
    | JString s => Some s
    | _ => None
    end.
Proof.
  revert node. induction keys as [|k keys IH]; intro node.
  - now destruct node.
  - rewrite can_descend_step. simpl.
    destruct (can_descend k node); [apply IH | reflexivity].
Qed.

(** The second loop returns what the walk finds, and the key when it
    finds nothing. *)
Lemma walk_fallback_resolve_walk key node keys :
  walk_fallback key node keys = default key (resolve_walk node keys).
Proof.
  revert node. induction keys as [|k keys IH]; intro node.
  - now destruct node.
  - rewrite can_descend_step. simpl.
    destruct (can_descend k node); [apply IH | reflexivity].
Qed.
End Resolver.

(** C3. For every key, language code and set of dictionaries, [t] walks the
    dictionary of the language one segment at a time; when a node is not a
    keyed mapping, lacks the segment, or the walk ends on a value that is
    not a string, the same walk is made in the dictionary of "en"; when
    that fails too the key itself is returned.  [t] is a total function
    into strings: it returns a string in every case and throws in none. *)
Theorem t_resolve (TRANSLATIONS : JSValue) (language key : string) :
  t TRANSLATIONS language key = resolve TRANSLATIONS language key.
Proof.
  unfold t, resolve, dictionary_of.
  rewrite (walk_language_resolve_walk (get_property language TRANSLATIONS)).
  rewrite walk_fallback_resolve_walk.
  destruct (walk_language (get_property language TRANSLATIONS) (split_dot key));
    try reflexivity;
    now destruct (resolve_walk (get_property "en" TRANSLATIONS) (split_dot key)).
Qed.

Example split_dot_three : split_dot "a.b.c" = ["a"; "b"; "c"].
Proof. reflexivity. Qed.

Example split_dot_gaps : split_dot ".a..b." = [""; "a"; ""; "b"; ""].
Proof. reflexivity. Qed.

Example t_language : t sample_translations "pt" "sidebar.home" = "Inicio".
Proof. reflexivity. Qed.

Example t_fallback_missing_segment :
  t sample_translations "pt" "title" = "Videos".
Proof. reflexivity. Qed.

Example t_fallback_not_a_mapping :
  t sample_translations "pt" "sidebar.settings.theme" = "Theme".
Proof. reflexivity. Qed.

Example t_fallback_not_a_string :
  t sample_translations "pt" "sidebar" = "sidebar".
Proof. reflexivity. Qed.

Example t_unknown_language :
  t sample_translations "xx" "sidebar.home" = "Home".
Proof. reflexivity. Qed.

Example t_key_unchanged : t sample_translations "xx" "a.b.c" = "a.b.c".
Proof. reflexivity. Qed.

(** ** The JSON grammar never runs out of fuel *)

Section JsonFuel.
Implicit Types (s r : string) (fuel : nat).

Local Abbreviation len := String.length.

Lemma skip_whitespace_length s : (len (skip_whitespace s) <= len s)%nat.
Proof.
  induction s as [|c s IH]; simpl; [lia|].
  destruct (is_whitespace c); simpl; lia.
Qed.

Lemma skip_digits_length s : (len (skip_digits s) <= len s)%nat.
Proof.
  induction s as [|c s IH]; simpl; [lia|].
  destruct (is_digit c); simpl; lia.
Qed.

Lemma json_digits_length s r : json_digits s = Some r -> (len r <= len s)%nat.
Proof.
  destruct s as [|c s]; simpl; [discriminate|].
  destruct (is_digit c); [|discriminate].
  intros [= <-]. pose proof (skip_digits_length s). lia.
Qed.

Lemma json_fraction_length s r :
  json_fraction s = Some r -> (len r <= len s)%nat.
Proof.
  unfold json_fraction. destruct s as [|c s]; [intros [= <-]; lia|].
  destruct (Ascii.eqb c ".") eqn:E.
  - apply Ascii.eqb_eq in E as ->. intro H.
    apply json_digits_length in H. simpl. lia.
  - assert (c <> "."%char) as Hne by now apply Ascii.eqb_neq.
    intro H. assert (Some (String c s) = Some r) as [= <-]; [|lia].
    rewrite <- H. clear H.
    destruct c as [[] [] [] [] [] [] [] []]; try reflexivity.
    now contradiction Hne.
Qed.

Lemma json_exponent_length s r :
  json_exponent s = Some r -> (len r <= len s)%nat.
Proof.
  unfold json_exponent. destruct s as [|c s]; [intros [= <-]; lia|].
  destruct (Ascii.eqb c "e" || Ascii.eqb c "E"); [|intros [= <-]; lia].
  destruct s as [|sign s]; [discriminate|].
  destruct (Ascii.eqb sign "+" || Ascii.eqb sign "-"); intro H;
    apply json_digits_length in H; simpl in *; lia.
Qed.

Lemma json_number_length s r : json_number s = Some r -> (len r <= len s)%nat.
Proof.
  unfold json_number.
  set (unsigned := match s with String "-"%char r0 => r0 | _ => s end).
  assert (Hu : (len unsigned <= len s)%nat).
  { subst unsigned. destruct s as [|c s]; [lia|].
    destruct c as [[] [] [] [] [] [] [] []]; simpl; lia. }
  destruct unsigned as [|c u]; [discriminate|].
  destruct (if Ascii.eqb c "0" then Some u
            else if is_digit c then Some (skip_digits u) else None)
    as [s1|] eqn:E1; [|discriminate].
  destruct (json_fraction s1) as [s2|] eqn:E2; [|discriminate].
  intro E3. apply json_fraction_length in E2. apply json_exponent_length in E3.
  assert (len s1 <= len u)%nat.
  { destruct (Ascii.eqb c "0"); [now inversion E1|].
    destruct (is_digit c); [|discriminate].
    inversion E1. apply skip_digits_length. }
  simpl in Hu. lia.
Qed.

Lemma json_word_length word s r :
  json_word word s = Some r -> (len r <= len s)%nat.
Proof.
  revert s. induction word as [|a word IH]; intros s; simpl.
  - intros [= <-]. lia.
  - destruct s as [|b s]; [discriminate|].
    destruct (Ascii.eqb a b); [|discriminate].
    intro H. apply IH in H. simpl. lia.
Qed.

Lemma json_string_body_length s r :
  json_string_body s = Some r -> (len r <= len s)%nat.
Proof.
  remember (len s) as n eqn:Hn. assert (Hle : (len s <= n)%nat) by lia.
  clear Hn. revert s r Hle.
  induction n as [|n IH]; intros s r Hle; destruct s as [|c s];
    simpl in *; try discriminate; try lia.
  destruct (Ascii.eqb c quote); [intros [= <-]; lia|].
  destruct (Ascii.eqb c backslash).
  - destruct s as [|e s]; [discriminate|].
    destruct (_ || _).
    + intro H. apply IH in H; simpl in *; lia.
    + destruct (Ascii.eqb e "u"); [|discriminate].
      destruct s as [|h1 [|h2 [|h3 [|h4 s]]]]; try discriminate.
      destruct (_ && _); [|discriminate].
      intro H. apply IH in H; simpl in *; lia.
  - destruct (_ <? _)%nat; [discriminate|].
    intro H. apply IH in H; simpl in *; lia.
Qed.

Lemma parsed_of_length o s r :
  (forall r0, o = Some r0 -> (len r0 <= len s)%nat) ->
  parsed_of o = Rest r -> (len r <= len s)%nat.
Proof.
  intros Ho. destruct o as [r0|]; simpl; [|discriminate].
  intros [= <-]. pose proof (skip_whitespace_length r0).
  specialize (Ho r0 eq_refl). lia.
Qed.

Lemma parsed_of_fuel o : parsed_of o <> OutOfFuel.
Proof. now destruct o. Qed.

Lemma json_close_length close s r :
  json_close close s = Some r -> (S (len r) <= len s)%nat.
Proof.
  unfold json_close. pose proof (skip_whitespace_length s) as Hs.
  destruct (skip_whitespace s) as [|c s']; [discriminate|].
  destruct (Ascii.eqb c close); [|discriminate].
  intros [= <-]. simpl in Hs. lia.
Qed.

(** What is left after a value, after the elements of an array or after
    the members of an object is not longer than the text that was read. *)
Lemma json_value_length fuel :
  (forall s r, json_value fuel s = Rest r -> (len r <= len s)%nat) /\
  (forall s r, json_elements fuel s = Rest r -> (len r <= len s)%nat) /\
  (forall s r, json_members fuel s = Rest r -> (len r <= len s)%nat).
Proof.
  induction fuel as [|fuel (IHv & IHe & IHm)];
    [repeat split; intros; discriminate|].
  split; [|split]; intros s r; cbn [json_value json_elements json_members].
  - pose proof (skip_whitespace_length s) as Hs.
    destruct (skip_whitespace s) as [|c s'] eqn:Es; [discriminate|].
    simpl in Hs.
    assert (Hof : forall o, (forall r0, o = Some r0 -> (len r0 <= len s)%nat) ->
                            parsed_of o = Rest r -> (len r <= len s)%nat).
    { intros o Ho. now apply parsed_of_length. }
    destruct (Ascii.eqb c quote).
    { apply Hof. intros r0 H0. apply json_string_body_length in H0. lia. }
    destruct (Ascii.eqb c "[").
    { destruct (json_close "]" s') as [r'|] eqn:Ec.
      - apply json_close_length in Ec. intros [= <-].
        pose proof (skip_whitespace_length r'). lia.
      - intro H. apply IHe in H. lia. }
    destruct (Ascii.eqb c "{").
    { destruct (json_close "}" s') as [r'|] eqn:Ec.
      - apply json_close_length in Ec. intros [= <-].
        pose proof (skip_whitespace_length r'). lia.
      - intro H. apply IHm in H. lia. }
    destruct (Ascii.eqb c "t").
    { apply Hof. intros r0 H0. apply json_word_length in H0. lia. }
    destruct (Ascii.eqb c "f").
    { apply Hof. intros r0 H0. apply json_word_length in H0. lia. }
    destruct (Ascii.eqb c "n").
    { apply Hof. intros r0 H0. apply json_word_length in H0. lia. }
    apply Hof. intros r0 H0. apply json_number_length in H0. simpl in H0. lia.
  - destruct (json_value fuel s) as [[|c r1]| |] eqn:Ev; try discriminate.
    apply IHv in Ev. simpl in Ev.
    destruct (Ascii.eqb c ",").
    { intro H. apply IHe in H. lia. }
    destruct (Ascii.eqb c "]"); [|discriminate].
    intros [= <-]. pose proof (skip_whitespace_length r1). lia.
  - pose proof (skip_whitespace_length s) as Hs.
    destruct (skip_whitespace s) as [|q s'] eqn:Es; [discriminate|].
    simpl in Hs. destruct (Ascii.eqb q quote); [|discriminate].
    destruct (parsed_of (json_string_body s')) as [[|colon r1]| |] eqn:Ek;
      try discriminate.
    apply (parsed_of_length _ s') in Ek;
      [|intros r0 H0; now apply json_string_body_length in H0].
    simpl in Ek. destruct (Ascii.eqb colon ":"); [|discriminate].
    destruct (json_value fuel r1) as [[|c r2]| |] eqn:Ev; try discriminate.
    apply IHv in Ev. simpl in Ev.
    destruct (Ascii.eqb c ",").
    { intro H. apply IHm in H. lia. }
    destruct (Ascii.eqb c "}"); [|discriminate].
    intros [= <-]. pose proof (skip_whitespace_length r2). lia.
Qed.

(** Two nested calls for each character, and one, are enough. *)
Lemma json_value_fuel fuel :
  (forall s, (2 * len s + 1 <= fuel)%nat -> json_value fuel s <> OutOfFuel) /\
  (forall s, (2 * len s + 2 <= fuel)%nat -> json_elements fuel s <> OutOfFuel) /\
  (forall s, (2 * len s + 2 <= fuel)%nat -> json_members fuel s <> OutOfFuel).
Proof.
  induction fuel as [|fuel (IHv & IHe & IHm)];
    [repeat split; intros; lia|].
  split; [|split]; intros s Hfuel;
    cbn [json_value json_elements json_members].
  - pose proof (skip_whitespace_length s) as Hs.
    destruct (skip_whitespace s) as [|c s'] eqn:Es; [discriminate|].
    simpl in Hs.
    destruct (Ascii.eqb c quote); [apply parsed_of_fuel|].
    destruct (Ascii.eqb c "[").
    { destruct (json_close "]" s'); [discriminate|]. apply IHe. lia. }
    destruct (Ascii.eqb c "{").
    { destruct (json_close "}" s'); [discriminate|]. apply IHm. lia. }
    destruct (Ascii.eqb c "t"); [apply parsed_of_fuel|].
    destruct (Ascii.eqb c "f"); [apply parsed_of_fuel|].
    destruct (Ascii.eqb c "n"); [apply parsed_of_fuel|].
    apply parsed_of_fuel.
  - destruct (json_value fuel s) as [[|c r1]| |] eqn:Ev; try discriminate.
    + apply (proj1 (json_value_length fuel)) in Ev. simpl in Ev.
      destruct (Ascii.eqb c ","); [apply IHe; lia|].
      destruct (Ascii.eqb c "]"); discriminate.
    + exfalso. revert Ev. apply IHv. lia.
  - pose proof (skip_whitespace_length s) as Hs.
    destruct (skip_whitespace s) as [|q s'] eqn:Es; [discriminate|].
    simpl in Hs. destruct (Ascii.eqb q quote); [|discriminate].
    destruct (parsed_of (json_string_body s')) as [[|colon r1]| |] eqn:Ek;
      try discriminate.
    apply (parsed_of_length _ s') in Ek;
      [|intros r0 H0; now apply json_string_body_length in H0].
    simpl in Ek. destruct (Ascii.eqb colon ":"); [|discriminate].
    destruct (json_value fuel r1) as [[|c r2]| |] eqn:Ev; try discriminate.
    + apply (proj1 (json_value_length fuel)) in Ev. simpl in Ev.
      destruct (Ascii.eqb c ","); [apply IHm; lia|].
      destruct (Ascii.eqb c "}"); discriminate.
    + exfalso. revert Ev. apply IHv. lia.
Qed.
End JsonFuel.

(** [json_text] decides every text: the fuel it gives is never used up. *)
Lemma json_text_decides (text : string) :
  json_value (json_fuel text) text <> OutOfFuel.
Proof. apply json_value_fuel. unfold json_fuel. lia. Qed.

(** ** Preferences read from storage *)

Lemma or_default_missing (stored : option string) (fallback : string) :
  stored = None \/ stored = Some "" -> or_default stored fallback = fallback.
Proof. now intros [-> | ->]. Qed.

Lemma or_default_stored (s fallback : string) :
  s <> "" -> or_default (Some s) fallback = s.
Proof. intro H. simpl. now rewrite (proj2 (truthy_string_nonempty s) H). Qed.

(** C4, as amended.  For every content of the storage: a missing or empty
    stored value gives the default of the field (theme dark, language "en",
    deviceView desktop); autoplay is true for every stored value other than
    "false", also a missing one; a stored string that is not empty is taken
    for theme, language and deviceView as it is, whether or not it is one
    of the legal values of the field.  The four initialisers are total:
    none of them fails. *)
Theorem preferences_defaults (storage : Storage) :
  (getItem storage "theme" = None \/ getItem storage "theme" = Some "" ->
   init_theme storage = Theme.Dark) /\
  (getItem storage "language" = None \/ getItem storage "language" = Some "" ->
   init_language storage = "en") /\
  (getItem storage "deviceView" = None \/
   getItem storage "deviceView" = Some "" ->
   init_deviceView storage = "desktop") /\
  (getItem storage "isAutoplayEnabled" <> Some "false" ->
   init_isAutoplayEnabled storage = true) /\
  (forall s, s <> "" ->
     (getItem storage "theme" = Some s -> init_theme storage = s) /\
     (getItem storage "language" = Some s -> init_language storage = s) /\
     (getItem storage "deviceView" = Some s -> init_deviceView storage = s)).
Proof.
  unfold init_theme, init_language, init_deviceView, init_isAutoplayEnabled.
  repeat split.
  - apply or_default_missing.
  - apply or_default_missing.
  - apply or_default_missing.
  - intro H. now rewrite bool_decide_eq_false_2.
  - intros ->. now apply or_default_stored.
  - intros ->. now apply or_default_stored.
  - intros ->. now apply or_default_stored.
Qed.

(** C4 fails as stated: a stored theme that is neither "light" nor "dark"
    becomes the theme. *)
Lemma init_theme_accepts_any_string :
  init_theme {["theme" := "purple"]} = "purple" /\
  "purple" <> Theme.Light /\ "purple" <> Theme.Dark /\
  init_theme {["theme" := "purple"]} <> Theme.Dark.
Proof. repeat split; vm_compute; discriminate. Qed.

Lemma preferences_defaults_witness :
  (getItem ({["deviceView" := "tablet"]} : Storage) "theme" = None \/
   getItem ({["deviceView" := "tablet"]} : Storage) "theme" = Some "") /\
  init_theme {["deviceView" := "tablet"]} = Theme.Dark /\
  getItem ({["deviceView" := "tablet"]} : Storage) "isAutoplayEnabled"
  <> Some "false" /\
  init_isAutoplayEnabled {["deviceView" := "tablet"]} = true /\
  "tablet" <> "" /\
  getItem ({["deviceView" := "tablet"]} : Storage) "deviceView"
  = Some "tablet" /\
  init_deviceView {["deviceView" := "tablet"]} = "tablet".
Proof.
  pose proof (preferences_defaults {["deviceView" := "tablet"]})
    as (Htheme & _ & _ & Hauto & Hstored).
  assert (H1 : getItem ({["deviceView" := "tablet"]} : Storage) "theme" = None
               \/ getItem ({["deviceView" := "tablet"]} : Storage) "theme"
                  = Some "").
  { left. reflexivity. }
  assert (H2 : getItem ({["deviceView" := "tablet"]} : Storage)
                 "isAutoplayEnabled" <> Some "false").
  { vm_compute. discriminate. }
  assert (H3 : "tablet" <> "") by discriminate.
  assert (H4 : getItem ({["deviceView" := "tablet"]} : Storage) "deviceView"
               = Some "tablet") by reflexivity.
  split; [exact H1|]. split; [exact (Htheme H1)|].
  split; [exact H2|]. split; [exact (Hauto H2)|].
  split; [exact H3|]. split; [exact H4|].
  exact (proj2 (proj2 (Hstored "tablet" H3)) H4).
Defined.

(** ** Playlist and user read from storage *)

(** An opening brace alone is no JSON text: the members are missing. *)
Lemma json_text_open_brace :
  json_value (json_fuel "{") "{" = Reject /\ json_text "{" = false.
Proof. now split. Qed.

(** The playlist initialiser returns a playlist whatever is stored; on a
    text that is not JSON it writes to the console and returns the empty
    playlist. *)
Lemma init_playlist_malformed (h : Host) (storage : Storage) (text : string) :
  getItem storage "playlist" = Some text -> json_text text = false ->
  init_playlist h storage
  = ([], if truthy_string text then [parse_failure_message] else []).
Proof.
  intros Hget Hbad. unfold init_playlist, JSON_parse. rewrite Hget, Hbad.
  now destruct (truthy_string text).
Qed.

Lemma init_playlist_missing (h : Host) (storage : Storage) :
  getItem storage "playlist" = None -> init_playlist h storage = ([], []).
Proof. intro Hget. unfold init_playlist. now rewrite Hget. Qed.

(** The user initialiser throws exactly on a stored text that is neither
    empty nor JSON. *)
Lemma init_user_throws (h : Host) (storage : Storage) :
  init_user h storage = Throw <->
  exists text, getItem storage "user" = Some text /\ text <> "" /\
               json_text text = false.
Proof.
  unfold init_user, JSON_parse. split.
  - destruct (getItem storage "user") as [text|]; [|discriminate].
    destruct (truthy_string text) eqn:E; [|discriminate].
    destruct (json_text text) eqn:J; [discriminate|]. intros _.
    exists text. repeat split; trivial. now apply truthy_string_nonempty.
  - intros (text & -> & Hne & ->).
    now rewrite (proj2 (truthy_string_nonempty text) Hne).
Qed.

(** C5 at the failing input.  With the text [{] stored under the playlist
    key the playlist is read as empty and the failure is written to the
    console; with the same text stored under the user key the user
    initialiser throws, and with it the first render. *)
Theorem init_user_malformed_json_throws (h : Host) (storage : Storage) :
  init_playlist h (<["playlist" := "{"]> storage)
  = ([], [parse_failure_message]) /\
  init_user h (<["user" := "{"]> storage) = Throw /\
  init h (<["user" := "{"]> storage) = Throw.
Proof.
  assert (Huser : init_user h (<["user" := "{"]> storage) = Throw).
  { apply init_user_throws. exists "{". unfold getItem.
    rewrite lookup_insert_eq. split; [reflexivity|].
    split; [discriminate | reflexivity]. }
  split; [|split].
  - rewrite (init_playlist_malformed h _ "{"); [reflexivity | | reflexivity].
    unfold getItem. now rewrite lookup_insert_eq.
  - exact Huser.
  - unfold init. now rewrite Huser.
Qed.

(** ** Session *)

(** C6. For every state, [handleLogout] clears the user and the flag; it
    sets the selected category to none when that was [myPlaylist] and
    leaves it as it was in every other case; the search query and the
    playlist stay as they were. *)
Theorem handleLogout_effect (s : AppState) :
  user (handleLogout s) = None /\
  isLoggedIn (handleLogout s) = false /\
  (selectedCategory s = Some myPlaylist ->
   selectedCategory (handleLogout s) = None) /\
  (selectedCategory s <> Some myPlaylist ->
   selectedCategory (handleLogout s) = selectedCategory s) /\
  searchQuery (handleLogout s) = searchQuery s /\
  playlist (handleLogout s) = playlist s.
Proof.
  unfold handleLogout. case_bool_decide as Hc; simpl; repeat split;
    try reflexivity; try (intros; congruence).
Qed.

Lemma handleLogout_effect_witness :
  selectedCategory state_in_playlist_view = Some myPlaylist /\
  selectedCategory (handleLogout state_in_playlist_view) = None /\
  selectedCategory (handleLogout (handle (CategorySelect (Some "sports"))
                                    state_in_playlist_view))
  = Some "sports".
Proof.
  split; [reflexivity|]. split.
  - apply (handleLogout_effect state_in_playlist_view). reflexivity.
  - apply (handleLogout_effect
             (handle (CategorySelect (Some "sports")) state_in_playlist_view)).
    discriminate.
Defined.

Lemma handleLogin_session (s : AppState) :
  isLoggedIn (handleLogin s) = true /\ user (handleLogin s) = Some janeDoe.
Proof. now split. Qed.

Lemma handleLogout_session (s : AppState) :
  isLoggedIn (handleLogout s) = false /\ user (handleLogout s) = None.
Proof. unfold handleLogout. now case_bool_decide. Qed.

(** Every intent keeps the flag and the profile in agreement. *)
Lemma handle_session_consistent (i : Intent) (s : AppState) :
  session_consistent s -> session_consistent (handle i s).
Proof.
  unfold session_consistent. intro H.
  destruct i; try exact H.
  - simpl. now split.
  - destruct (handleLogout_session s) as [Hflag Huser]. simpl.
    rewrite Hflag, Huser. split; [discriminate | congruence].
Qed.

(** C9, as amended.  In every state that the operations reach from a first
    state in which the flag and the profile agree, the flag is true exactly
    when there is a profile; login sets both, logout clears both, and every
    other operation leaves the flag and the profile as they were. *)
Theorem session_consistent_reachable (s0 s : AppState) :
  session_consistent s0 -> reachable_from s0 s ->
  session_consistent s /\
  (isLoggedIn (handleLogin s) = true /\ user (handleLogin s) = Some janeDoe) /\
  (isLoggedIn (handleLogout s) = false /\ user (handleLogout s) = None) /\
  (forall i, i <> Login -> i <> Logout ->
     isLoggedIn (handle i s) = isLoggedIn s /\ user (handle i s) = user s).
Proof.
  intros H0 Hreach. split; [|split; [|split]].
  - induction Hreach as [|s i _ IH]; [exact H0|].
    now apply handle_session_consistent.
  - apply handleLogin_session.
  - apply handleLogout_session.
  - intros i Hlogin Hlogout. destruct i; try (split; reflexivity).
    + now contradiction Hlogin.
    + now contradiction Hlogout.
Qed.

(** C9 fails as stated: the flag and the user are read from two keys, and
    a storage that holds the flag without the user gives a first state in
    which they disagree. *)
Lemma init_session_inconsistent :
  ~ (forall (h : Host) (storage : Storage) (s : AppState),
       init h storage = Normal s -> session_consistent s).
Proof.
  intro H.
  assert (Hinit : exists s, init ascii_host {["isLoggedIn" := "true"]}
                            = Normal s /\
                            isLoggedIn s = true /\ user s = None).
  { eexists. split; [reflexivity|]. now split. }
  destruct Hinit as (s & Hs & Hflag & Huser).
  apply H in Hs. now apply Hs.
Qed.

Lemma session_consistent_reachable_witness :
  session_consistent anonymous_state /\
  session_consistent (handle Logout (handle Login anonymous_state)).
Proof.
  assert (H0 : session_consistent anonymous_state).
  { unfold session_consistent. simpl. split; [discriminate | congruence]. }
  split; [exact H0|].
  apply (session_consistent_reachable anonymous_state
           (handle Logout (handle Login anonymous_state)) H0).
  apply reach_step, reach_step, reach_first.
Defined.

(** ** Debounce *)

Section DebounceFacts.
Import Debounce.
Context (h : Host) (MOCK_VIDEOS : list Video).
Implicit Types (rt : Runtime) (tm : Timer) (c : Criteria) (d g : nat).

Local Abbreviation tick := (tick h MOCK_VIDEOS).
Local Abbreviation advance := (advance h MOCK_VIDEOS).
Local Abbreviation run_burst := (run_burst h MOCK_VIDEOS).
Local Abbreviation fire := (fire h MOCK_VIDEOS).
Local Abbreviation filtered := (filtered h MOCK_VIDEOS).

Lemma tick_idle rt :
  timers rt = [] -> tick rt = at_clock (S (clock rt)) rt.
Proof.
  destruct rt as [clk nt tms cl cur vis recs]; simpl. intros ->.
  reflexivity.
Qed.

Lemma tick_waiting rt tm :
  timers rt = [tm] -> (S (clock rt) < deadline tm)%nat ->
  tick rt = at_clock (S (clock rt)) rt.
Proof.
  destruct rt as [clk nt tms cl cur vis recs]; simpl. intros -> Hlt.
  unfold Debounce.tick, at_clock; simpl.
  destruct (Nat.leb_spec (deadline tm) (S clk)); [lia | reflexivity].
Qed.

Lemma tick_firing rt tm :
  timers rt = [tm] -> (deadline tm <= S (clock rt))%nat ->
  tick rt
  = mkRuntime (S (clock rt)) (nextTimer rt) [] (cleanup rt) (current rt)
      (filtered (captured tm))
      (recomputations rt
       ++ [mkRecomputation (S (clock rt)) (captured tm) (current rt)]).
Proof.
  destruct rt as [clk nt tms cl cur vis recs]; simpl. intros -> Hle.
  unfold Debounce.tick; simpl.
  destruct (Nat.leb_spec (deadline tm) (S clk)); [reflexivity | lia].
Qed.

Lemma advance_add d1 d2 rt :
  advance (d1 + d2) rt = advance d2 (advance d1 rt).
Proof.
  revert rt. induction d1 as [|d1 IH]; intro rt; [reflexivity|].
  simpl. apply IH.
Qed.

Lemma advance_idle d rt :
  timers rt = [] -> advance d rt = at_clock (clock rt + d) rt.
Proof.
  revert rt. induction d as [|d IH]; intros rt Hidle.
  - destruct rt; unfold at_clock; simpl. f_equal. lia.
  - simpl. rewrite (tick_idle rt Hidle), IH by exact Hidle.
    unfold at_clock; simpl. f_equal. lia.
Qed.

Lemma advance_waiting d rt tm :
  timers rt = [tm] -> (clock rt + d < deadline tm)%nat ->
  advance d rt = at_clock (clock rt + d) rt.
Proof.
  revert rt. induction d as [|d IH]; intros rt Hone Hlt.
  - destruct rt; unfold at_clock; simpl. f_equal. lia.
  - simpl. rewrite (tick_waiting rt tm Hone) by lia.
    rewrite IH; [| exact Hone | simpl; lia].
    unfold at_clock; simpl. f_equal. lia.
Qed.

(** Time passes beyond the deadline of the one pending timer: it runs
    once, at its deadline. *)
Lemma advance_firing d rt tm :
  timers rt = [tm] -> (clock rt < deadline tm)%nat ->
  (deadline tm <= clock rt + d)%nat ->
  advance d rt
  = mkRuntime (clock rt + d) (nextTimer rt) [] (cleanup rt) (current rt)
      (filtered (captured tm))
      (recomputations rt
       ++ [mkRecomputation (deadline tm) (captured tm) (current rt)]).
Proof.
  revert rt. induction d as [|d IH]; intros rt Hone Hlt Hle; [lia|].
  simpl. destruct (Nat.lt_ge_cases (S (clock rt)) (deadline tm)) as [Hw | Hf].
  - rewrite (tick_waiting rt tm Hone Hw).
    rewrite IH; [| exact Hone | simpl; lia | simpl; lia].
    simpl. f_equal. lia.
  - rewrite (tick_firing rt tm Hone Hf).
    rewrite advance_idle by reflexivity.
    unfold at_clock; simpl. f_equal; [lia|].
    do 2 f_equal. f_equal. lia.
Qed.

(** A change in a well-formed state cancels what is pending and sets
    one timer. *)
Lemma trigger_well_formed c rt :
  well_formed rt ->
  trigger c rt
  = mkRuntime (clock rt) (S (nextTimer rt))
      [mkTimer (nextTimer rt) (clock rt + delay) c]
      (Some (nextTimer rt)) c (visible rt) (recomputations rt).
Proof.
  intros [[Hidle | (tm & Hone & Hcl & _)] _];
    destruct rt as [clk nt tms cl cur vis recs]; simpl in *; subst.
  - unfold trigger, run_effect; simpl. now destruct cl.
  - unfold trigger, run_effect; simpl. now rewrite Nat.eqb_refl.
Qed.

Lemma trigger_armed c rt :
  well_formed rt ->
  armed (trigger c rt) /\ current (trigger c rt) = c /\
  clock (trigger c rt) = clock rt /\
  visible (trigger c rt) = visible rt /\
  recomputations (trigger c rt) = recomputations rt.
Proof.
  intro Hwf. rewrite (trigger_well_formed c rt Hwf). simpl.
  repeat split. eexists. simpl. repeat split.
Qed.

Lemma armed_well_formed rt :
  armed rt -> Forall (fun r => used r = latest r) (recomputations rt) ->
  well_formed rt.
Proof.
  intros (tm & Hone & Hcl & Hcap & Hdl) Hlog. split; [|exact Hlog].
  right. exists tm. unfold delay in *. repeat split; trivial; lia.
Qed.

Lemma mount_well_formed c : well_formed (mount c).
Proof.
  split; [|constructor]. right.
  exists (mkTimer 0 (0 + delay) c). unfold delay.
  repeat split; simpl; lia.
Qed.

Lemma tick_preserves_well_formed rt : well_formed rt -> well_formed (tick rt).
Proof.
  intros [[Hidle | (tm & Hone & Hcl & Hcap & Hlt & Hle)] Hlog].
  - rewrite (tick_idle rt Hidle). split; [now left | exact Hlog].
  - destruct (Nat.lt_ge_cases (S (clock rt)) (deadline tm)) as [Hw | Hf].
    + rewrite (tick_waiting rt tm Hone Hw). split; [|exact Hlog].
      right. exists tm. simpl. repeat split; trivial; lia.
    + rewrite (tick_firing rt tm Hone Hf). split; [now left|]. simpl.
      apply Forall_app. split; [exact Hlog|]. constructor; [|constructor].
      exact Hcap.
Qed.

Lemma trigger_preserves_well_formed c rt :
  well_formed rt -> well_formed (trigger c rt).
Proof.
  intro Hwf. destruct (trigger_armed c rt Hwf) as (Ha & _ & _ & _ & Hrec).
  apply armed_well_formed; [exact Ha|]. rewrite Hrec. apply Hwf.
Qed.

Lemma reachable_well_formed rt :
  reachable h MOCK_VIDEOS rt -> well_formed rt.
Proof.
  induction 1 as [c | c rt _ IH | rt _ IH].
  - apply mount_well_formed.
  - now apply trigger_preserves_well_formed.
  - now apply tick_preserves_well_formed.
Qed.

(** Tear-down leaves no timer behind. *)
Lemma unmount_cancels rt : well_formed rt -> timers (unmount rt) = [].
Proof.
  intros [[Hidle | (tm & Hone & Hcl & _)] _]; unfold unmount.
  - destruct (cleanup rt); simpl; now rewrite Hidle.
  - rewrite Hcl. simpl. rewrite Hone. simpl. now rewrite Nat.eqb_refl.
Qed.

Lemma advance_reachable d rt :
  reachable h MOCK_VIDEOS rt -> reachable h MOCK_VIDEOS (advance d rt).
Proof.
  revert rt. induction d as [|d IH]; intros rt Hr; [exact Hr|].
  simpl. apply IH. now constructor.
Qed.

Lemma run_burst_reachable burst rt :
  reachable h MOCK_VIDEOS rt -> reachable h MOCK_VIDEOS (run_burst burst rt).
Proof.
  revert rt. induction burst as [|[g c] burst IH]; intros rt Hr; [exact Hr|].
  simpl. apply IH. constructor. now apply advance_reachable.
Qed.

(** One more change, less than a quiet period after the last: nothing is
    recomputed, and the timer is set anew. *)
Lemma burst_step g c rt :
  armed rt -> Forall (fun r => used r = latest r) (recomputations rt) ->
  (g < delay)%nat ->
  armed (trigger c (advance g rt)) /\
  current (trigger c (advance g rt)) = c /\
  clock (trigger c (advance g rt)) = (clock rt + g)%nat /\
  visible (trigger c (advance g rt)) = visible rt /\
  recomputations (trigger c (advance g rt)) = recomputations rt.
Proof.
  intros Ha Hlog Hg. pose proof Ha as (tm & Hone & Hcl & Hcap & Hdl).
  rewrite (advance_waiting g rt tm Hone) by lia.
  assert (Hwf : well_formed (at_clock (clock rt + g) rt)).
  { split; [|exact Hlog]. right. exists tm. simpl.
    repeat split; trivial; lia. }
  destruct (trigger_armed c _ Hwf) as (H1 & H2 & H3 & H4 & H5).
  repeat split; assumption.
Qed.

Lemma last_cons_default {A} (x d : A) (l : list A) :
  List.last (x :: l) d = List.last l x.
Proof.
  revert x d. induction l as [|y l IH]; intros x d; [reflexivity|].
  change (List.last (x :: y :: l) d) with (List.last (y :: l) d).
  now rewrite (IH y d), (IH y x).
Qed.

Lemma run_burst_armed burst rt c0 :
  armed rt -> current rt = c0 ->
  Forall (fun r => used r = latest r) (recomputations rt) ->
  Forall (fun gc => (fst gc < delay)%nat) burst ->
  armed (run_burst burst rt) /\
  current (run_burst burst rt) = List.last (List.map snd burst) c0 /\
  clock (run_burst burst rt) = (clock rt + list_sum (List.map fst burst))%nat /\
  visible (run_burst burst rt) = visible rt /\
  recomputations (run_burst burst rt) = recomputations rt.
Proof.
  revert rt c0.
  induction burst as [|[g c] burst IH]; intros rt c0 Ha Hcur Hlog Hgaps.
  - simpl. repeat split; trivial.
  - inversion Hgaps as [|? ? Hg Hgaps']; subst. simpl in Hg.
    destruct (burst_step g c rt Ha Hlog Hg) as (H1 & H2 & H3 & H4 & H5).
    cbn [Debounce.run_burst fold_left fst snd].
    destruct (IH (trigger c (advance g rt)) c H1 H2) as (I1 & I2 & I3 & I4 & I5).
    { now rewrite H5. }
    { exact Hgaps'. }
    unfold Debounce.run_burst in *. repeat split.
    + exact I1.
    + rewrite I2. cbn [List.map snd]. now rewrite last_cons_default.
    + rewrite I3, H3. simpl. lia.
    + now rewrite I4.
    + now rewrite I5.
Qed.
End DebounceFacts.

(** C8. For every burst of changes of the search query, the selected
    category or the playlist in which each change comes less than the
    quiet period of 300 after the one before it: once a quiet period and
    more has passed after the last change, exactly one recomputation has
    run since the burst began, it ran one quiet period after the last
    change, and it used the values of the last change.  The timers that
    the earlier changes set were cancelled, and no recomputation that ever
    ran used other criteria than the latest. *)
Theorem debounce_burst (h : Host) (MOCK_VIDEOS : list Video)
  (rt : Debounce.Runtime) (c0 : Debounce.Criteria)
  (burst : list (nat * Debounce.Criteria)) (d : nat) :
  Debounce.reachable h MOCK_VIDEOS rt ->
  Forall (fun gc => (fst gc < Debounce.delay)%nat) burst ->
  (Debounce.delay <= d)%nat ->
  let last_change := List.last (List.map snd burst) c0 in
  let quiet :=
    Debounce.run_burst h MOCK_VIDEOS burst (Debounce.trigger c0 rt) in
  let final := Debounce.advance h MOCK_VIDEOS d quiet in
  Debounce.clock quiet
  = (Debounce.clock rt + list_sum (List.map fst burst))%nat /\
  Debounce.recomputations quiet = Debounce.recomputations rt /\
  Debounce.recomputations final
  = (Debounce.recomputations rt
     ++ [Debounce.mkRecomputation (Debounce.clock quiet + Debounce.delay)
           last_change last_change])%list /\
  Debounce.visible final = Debounce.filtered h MOCK_VIDEOS last_change /\
  Debounce.timers final = [] /\
  Forall (fun r => Debounce.used r = Debounce.latest r)
    (Debounce.recomputations final).
Proof.
  intros Hreach Hgaps Hd last_change quiet final.
  pose proof (reachable_well_formed h MOCK_VIDEOS rt Hreach) as Hwf.
  destruct (trigger_armed c0 rt Hwf) as (Ha & Hcur & Hclk & Hvis & Hrec).
  assert (Hlog : Forall (fun r => Debounce.used r = Debounce.latest r)
                   (Debounce.recomputations (Debounce.trigger c0 rt))).
  { rewrite Hrec. apply Hwf. }
  destruct (run_burst_armed h MOCK_VIDEOS burst _ c0 Ha Hcur Hlog Hgaps)
    as (Qa & Qcur & Qclk & Qvis & Qrec).
  fold quiet in Qa, Qcur, Qclk, Qvis, Qrec.
  destruct Qa as (tm & Hone & Hcl & Hcap & Hdl).
  assert (Hfinal : final
    = Debounce.mkRuntime (Debounce.clock quiet + d) (Debounce.nextTimer quiet)
        [] (Debounce.cleanup quiet) (Debounce.current quiet)
        (Debounce.filtered h MOCK_VIDEOS (Debounce.captured tm))
        (Debounce.recomputations quiet
         ++ [Debounce.mkRecomputation (Debounce.deadline tm)
               (Debounce.captured tm) (Debounce.current quiet)])).
  { apply advance_firing; [exact Hone | |];
      rewrite Hdl; unfold Debounce.delay in *; lia. }
  assert (Hfr : Debounce.reachable h MOCK_VIDEOS final).
  { apply advance_reachable, run_burst_reachable. now constructor. }
  split; [rewrite Qclk, Hclk; reflexivity|].
  split; [rewrite Qrec, Hrec; reflexivity|].
  split; [|split; [|split]].
  - rewrite Hfinal. simpl. rewrite Qrec, Hrec, Hdl, Hcap, Qcur. reflexivity.
  - rewrite Hfinal. simpl. now rewrite Hcap, Qcur.
  - rewrite Hfinal. reflexivity.
  - apply (reachable_well_formed h MOCK_VIDEOS final Hfr).
Qed.

Lemma debounce_burst_witness :
  Debounce.reachable ascii_host [video_a; video_b]
    (Debounce.mount (criteria_of "")) /\
  Forall (fun gc => (fst gc < Debounce.delay)%nat) three_changes /\
  (Debounce.delay <= 300)%nat /\
  Debounce.recomputations
    (Debounce.advance ascii_host [video_a; video_b] 300
       (Debounce.run_burst ascii_host [video_a; video_b] three_changes
          (Debounce.trigger (criteria_of "j")
             (Debounce.mount (criteria_of "")))))
  = (Debounce.recomputations (Debounce.mount (criteria_of ""))
     ++ [Debounce.mkRecomputation
           (Debounce.clock
              (Debounce.run_burst ascii_host [video_a; video_b] three_changes
                 (Debounce.trigger (criteria_of "j")
                    (Debounce.mount (criteria_of ""))))
            + Debounce.delay)
           (List.last (List.map snd three_changes) (criteria_of "j"))
           (List.last (List.map snd three_changes) (criteria_of "j"))])%list.
Proof.
  assert (Hr : Debounce.reachable ascii_host [video_a; video_b]
                 (Debounce.mount (criteria_of ""))) by constructor.
  assert (Hg : Forall (fun gc => (fst gc < Debounce.delay)%nat) three_changes).
  { unfold three_changes, Debounce.delay.
    repeat constructor; simpl; lia. }
  assert (Hd : (Debounce.delay <= 300)%nat) by (unfold Debounce.delay; lia).
  split; [exact Hr|]. split; [exact Hg|]. split; [exact Hd|].
  exact (proj1 (proj2 (proj2
           (debounce_burst ascii_host [video_a; video_b]
              (Debounce.mount (criteria_of "")) (criteria_of "j")
              three_changes 300 Hr Hg Hd)))).
Defined.

(** The example of the specification: three changes of the query within
    the quiet period give one recomputation, 300 after the last change,
    with the last query. *)
Example debounce_three_changes :
  let final :=
    Debounce.advance ascii_host [video_a; video_b] 300
      (Debounce.run_burst ascii_host [video_a; video_b] three_changes
         (Debounce.trigger (criteria_of "j")
            (Debounce.mount (criteria_of "")))) in
  Debounce.recomputations final
  = [Debounce.mkRecomputation 450 (criteria_of "jaz") (criteria_of "jaz")] /\
  Debounce.visible final = [video_a] /\
  Debounce.timers final = [].
Proof. vm_compute. repeat split. Qed.

(** * Further properties *)

(** ** Playlist *)

(** X1. Toggling a video flips the answer of [isVideoInPlaylist] for its
    id, whatever the playlist holds. *)
Theorem togglePlaylist_flips_membership (P : list Video) (v : Video) :
  isVideoInPlaylist (togglePlaylist P v) (id v)
  = negb (isVideoInPlaylist P (id v)).
Proof. apply isVideoInPlaylist_toggle. Qed.

Lemma filter_filter_same {A} (f : A -> bool) (l : list A) :
  List.filter f (List.filter f l) = List.filter f l.
Proof.
  induction l as [|x l IH]; [reflexivity|]. simpl.
  destruct (f x) eqn:E; simpl; [rewrite E|]; now rewrite ?IH.
Qed.

(** X2. Toggling a video leaves every entry with another id where it was:
    the entries with other ids are the same, in the same order, and
    [isVideoInPlaylist] answers for every other id as before. *)
Theorem togglePlaylist_other_entries (P : list Video) (v : Video) :
  List.filter (fun w => negb (id w =? id v)) (togglePlaylist P v)
  = List.filter (fun w => negb (id w =? id v)) P /\
  (forall i, i <> id v ->
     isVideoInPlaylist (togglePlaylist P v) i = isVideoInPlaylist P i).
Proof.
  unfold togglePlaylist, isVideoInPlaylist.
  destruct (existsb (fun w => id w =? id v) P) eqn:E; split.
  - apply filter_filter_same.
  - intros i Hi. apply eq_true_iff_eq.
    rewrite !existsb_exists. split; intros (w & Hin & Hw).
    + apply filter_In in Hin as [Hin _]. now exists w.
    + exists w. split; [|exact Hw]. apply filter_In. split; [exact Hin|].
      apply Z.eqb_eq in Hw. apply negb_true_iff, Z.eqb_neq. congruence.
  - rewrite List.filter_app. simpl. rewrite Z.eqb_refl. simpl.
    apply app_nil_r.
  - intros i Hi. rewrite existsb_app. simpl.
    destruct (Z.eqb_spec (id v) i); [congruence|].
    now rewrite !orb_false_r.
Qed.

Lemma togglePlaylist_other_entries_witness :
  3 <> id video_a /\
  isVideoInPlaylist (togglePlaylist [video_a; video_c] video_a) 3
  = isVideoInPlaylist [video_a; video_c] 3.
Proof.
  assert (H : 3 <> id video_a) by discriminate.
  split; [exact H|].
  exact (proj2 (togglePlaylist_other_entries [video_a; video_c] video_a) 3 H).
Defined.

Lemma filter_length_le {A} (f : A -> bool) (l : list A) :
  (List.length (List.filter f l) <= List.length l)%nat.
Proof.
  induction l as [|x l IH]; simpl; [lia|]. destruct (f x); simpl; lia.
Qed.

Lemma filter_drops_member (P : list Video) (i : Z) :
  In i (ids P) ->
  (List.length (List.filter (fun w => negb (id w =? i)%Z) P)
   < List.length P)%nat.
Proof.
  induction P as [|w P IH]; simpl; [contradiction|].
  intros [Hw | Hin].
  - rewrite Hw, Z.eqb_refl. simpl.
    pose proof (filter_length_le (fun w => negb (id w =? i)) P). lia.
  - specialize (IH Hin). destruct (negb (id w =? i)); simpl; lia.
Qed.

(** X3. A toggle always changes the playlist: it is one entry longer when
    the id was absent and shorter when it was present, so the new playlist
    is never equal to the old one. *)
Theorem togglePlaylist_changes (P : list Video) (v : Video) :
  togglePlaylist P v <> P /\
  (~ In (id v) (ids P) ->
   List.length (togglePlaylist P v) = S (List.length P)) /\
  (In (id v) (ids P) ->
   (List.length (togglePlaylist P v) < List.length P)%nat).
Proof.
  assert (Habsent : ~ In (id v) (ids P) ->
            List.length (togglePlaylist P v) = S (List.length P)).
  { intro H. rewrite (togglePlaylist_absent P v H), List.length_app.
    simpl. lia. }
  assert (Hpresent : In (id v) (ids P) ->
            (List.length (togglePlaylist P v) < List.length P)%nat).
  { intro H. rewrite (togglePlaylist_present P v H).
    now apply filter_drops_member. }
  split; [|split; assumption].
  intro Heq. destruct (existsb (fun w => id w =? id v) P) eqn:E.
  - apply existsb_id_In in E. specialize (Hpresent E).
    rewrite Heq in Hpresent. lia.
  - apply existsb_id_not_In in E. specialize (Habsent E).
    rewrite Heq in Habsent. lia.
Qed.

Lemma togglePlaylist_changes_witness :
  In (id video_a) (ids [video_a; video_b; video_a]) /\
  (List.length (togglePlaylist [video_a; video_b; video_a] video_a)
   < List.length [video_a; video_b; video_a])%nat.
Proof.
  assert (H : In (id video_a) (ids [video_a; video_b; video_a])).
  { simpl. left. reflexivity. }
  split; [exact H|].
  exact (proj2 (proj2 (togglePlaylist_changes
                         [video_a; video_b; video_a] video_a)) H).
Defined.

Lemma NoDup_ids_filter (f : Video -> bool) (P : list Video) :
  List.NoDup (ids P) -> List.NoDup (ids (List.filter f P)).
Proof.
  induction P as [|w P IH]; simpl; intro H; [constructor|].
  inversion H as [|? ? Hnot Hnd]; subst.
  destruct (f w); simpl; [|now apply IH].
  constructor; [|now apply IH].
  intro Hin. apply Hnot. unfold ids in *. apply in_map_iff in Hin.
  destruct Hin as (u & Hu & Hin). apply filter_In in Hin as [Hin _].
  rewrite <- Hu. now apply in_map.
Qed.

Lemma togglePlaylist_NoDup (P : list Video) (v : Video) :
  List.NoDup (ids P) -> List.NoDup (ids (togglePlaylist P v)).
Proof.
  intro H. destruct (existsb (fun w => id w =? id v) P) eqn:E.
  - apply existsb_id_In in E. rewrite (togglePlaylist_present P v E).
    now apply NoDup_ids_filter.
  - apply existsb_id_not_In in E. rewrite (togglePlaylist_absent P v E).
    unfold ids in *. rewrite map_app. simpl.
    apply List.NoDup_app; [exact H | repeat constructor; simpl; tauto |].
    intros a Ha [<- | []]. contradiction.
Qed.

(** X4. The playlist changes through [togglePlaylist] only, and so the ids
    of the playlist stay unique in every state that the operations reach
    from a state in which they are. *)
Theorem playlist_ids_unique_reachable (s0 s : AppState) :
  List.NoDup (ids (playlist s0)) -> reachable_from s0 s ->
  List.NoDup (ids (playlist s)) /\
  (forall i, playlist (handle i s) <> playlist s ->
             exists video, i = TogglePlaylist video).
Proof.
  intros H0 Hreach. split.
  - induction Hreach as [|s i _ IH]; [exact H0|].
    destruct i; try exact IH.
    + unfold handle, handleLogout. now case_bool_decide.
    + simpl. now apply togglePlaylist_NoDup.
  - intros i Hi. destruct i; try (now exfalso; apply Hi).
    + exfalso. apply Hi. unfold handle, handleLogout. now case_bool_decide.
    + now exists video.
Qed.

Lemma playlist_ids_unique_reachable_witness :
  List.NoDup (ids (playlist anonymous_state)) /\
  List.NoDup
    (ids (playlist (handle (TogglePlaylist video_b)
                      (handle (TogglePlaylist video_a) anonymous_state)))).
Proof.
  assert (H0 : List.NoDup (ids (playlist anonymous_state))) by constructor.
  split; [exact H0|].
  apply (playlist_ids_unique_reachable anonymous_state
           (handle (TogglePlaylist video_b)
              (handle (TogglePlaylist video_a) anonymous_state)) H0).
  apply reach_step, reach_step, reach_first.
Defined.

(** ** Filter pipeline *)

Lemma List_filter_sublist {A} (f : A -> bool) (l : list A) :
  sublist (List.filter f l) l.
Proof.
  induction l as [|x l IH]; simpl; [constructor|].
  destruct (f x); now constructor.
Qed.

Lemma List_filter_sublist_impl {A} (f g : A -> bool) (l : list A) :
  (forall x, f x = true -> g x = true) ->
  sublist (List.filter f l) (List.filter g l).
Proof.
  intro Hfg. induction l as [|x l IH]; simpl; [constructor|].
  destruct (f x) eqn:Ef.
  - rewrite (Hfg x Ef). now constructor.
  - destruct (g x); [now constructor | exact IH].
Qed.

Lemma string_append_assoc (a b c : string) :
  ((a ++ b) ++ c)%string = (a ++ b ++ c)%string.
Proof.
  induction a as [|x a IH]; [reflexivity|].
  change (String x ((a ++ b) ++ c) = String x (a ++ b ++ c))%string.
  now f_equal.
Qed.

Lemma substring_of_trans (a b c : string) :
  substring_of a b -> substring_of b c -> substring_of a c.
Proof.
  intros (p1 & q1 & ->) (p2 & q2 & ->).
  exists (p2 ++ p1)%string, (q1 ++ q2)%string.
  now rewrite !string_append_assoc.
Qed.

(** X5. The visible set is a sublist of the playlist in the playlist view
    and of the catalog otherwise: filtering adds no video, repeats none and
    keeps the order. *)
Theorem filterVideos_sublist (toLowerCase : string -> string)
  (MOCK_VIDEOS : list Video) (searchQuery : string)
  (selectedCategory : option string) (playlist : list Video) :
  sublist
    (filterVideos toLowerCase MOCK_VIDEOS searchQuery selectedCategory playlist)
    (base_list MOCK_VIDEOS selectedCategory playlist).
Proof.
  unfold filterVideos, base_list.
  destruct (truthy_string searchQuery);
    [etrans; [apply List_filter_sublist|]|];
    case_bool_decide; try reflexivity;
    destruct (truthy_opt selectedCategory);
    try reflexivity; apply List_filter_sublist.
Qed.

(** X6. A query that holds another narrows its result: when the
    lower-cased first query occurs in the lower-cased second query, and the
    second is not empty, the videos shown for the second are among the
    videos shown for the first, in the same order. *)
Theorem filterVideos_narrows (toLowerCase : string -> string)
  (MOCK_VIDEOS : list Video) (q1 q2 : string)
  (selectedCategory : option string) (playlist : list Video) :
  q2 <> "" ->
  substring_of (toLowerCase q1) (toLowerCase q2) ->
  sublist
    (filterVideos toLowerCase MOCK_VIDEOS q2 selectedCategory playlist)
    (filterVideos toLowerCase MOCK_VIDEOS q1 selectedCategory playlist).
Proof.
  intros Hq2 Hsub. unfold filterVideos.
  rewrite (proj2 (truthy_string_nonempty q2) Hq2).
  destruct (truthy_string q1); [|apply List_filter_sublist].
  apply List_filter_sublist_impl. intros v Hv.
  apply matchesQuery_mentions. apply matchesQuery_mentions in Hv.
  destruct Hv as [Hv | Hv]; [left | right];
    exact (substring_of_trans _ _ _ Hsub Hv).
Qed.

Lemma filterVideos_narrows_witness :
  "Jaz" <> "" /\
  substring_of (ascii_toLowerCase "ja") (ascii_toLowerCase "Jaz") /\
  sublist
    (filterVideos ascii_toLowerCase [video_a; video_b; video_c] "Jaz" None [])
    (filterVideos ascii_toLowerCase [video_a; video_b; video_c] "ja" None []).
Proof.
  assert (H1 : "Jaz" <> "") by discriminate.
  assert (H2 : substring_of (ascii_toLowerCase "ja") (ascii_toLowerCase "Jaz")).
  { exists "", "z". reflexivity. }
  split; [exact H1|]. split; [exact H2|].
  exact (filterVideos_narrows ascii_toLowerCase [video_a; video_b; video_c]
           "ja" "Jaz" None [] H1 H2).
Defined.

(** X7. Outside the playlist view the visible set does not depend on the
    playlist, and in the playlist view it does not depend on the catalog. *)
Theorem filterVideos_independent (toLowerCase : string -> string)
  (searchQuery : string) (selectedCategory : option string) :
  (selectedCategory <> Some myPlaylist ->
   forall MOCK_VIDEOS playlist1 playlist2,
     filterVideos toLowerCase MOCK_VIDEOS searchQuery selectedCategory
       playlist1
     = filterVideos toLowerCase MOCK_VIDEOS searchQuery selectedCategory
         playlist2) /\
  (forall MOCK_VIDEOS1 MOCK_VIDEOS2 playlist,
     filterVideos toLowerCase MOCK_VIDEOS1 searchQuery (Some myPlaylist)
       playlist
     = filterVideos toLowerCase MOCK_VIDEOS2 searchQuery (Some myPlaylist)
         playlist).
Proof.
  split.
  - intros Hc M p1 p2. unfold filterVideos.
    now rewrite bool_decide_eq_false_2.
  - intros M1 M2 p. unfold filterVideos.
    now rewrite bool_decide_eq_true_2.
Qed.

Lemma filterVideos_independent_witness :
  Some "sports" <> Some myPlaylist /\
  filterVideos ascii_toLowerCase [video_a; video_b] "" (Some "sports") []
  = filterVideos ascii_toLowerCase [video_a; video_b] "" (Some "sports")
      [video_a].
Proof.
  assert (H : Some "sports" <> Some myPlaylist) by discriminate.
  split; [exact H|].
  exact (proj1 (filterVideos_independent ascii_toLowerCase "" (Some "sports"))
           H [video_a; video_b] [] [video_a]).
Defined.

(** ** Translation resolver *)

Lemma split_dot_nonempty (key : string) : split_dot key <> [].
Proof.
  destruct key as [|c rest]; simpl; [discriminate|].
  destruct (Ascii.eqb c "."); [discriminate|].
  destruct (split_dot rest); discriminate.
Qed.

Lemma no_dot_cons (c : ascii) (seg : string) :
  c <> "."%char -> ~ substring_of "." seg -> ~ substring_of "." (String c seg).
Proof.
  intros Hc Hseg ([|a pre] & post & H).
  - inversion H. congruence.
  - apply Hseg. exists pre, post. now inversion H.
Qed.

(** X11. The segments that [split_dot] cuts a key into are never none,
    hold no dot, and give the key back when they are joined with dots. *)
Theorem split_dot_concat (key : string) :
  split_dot key <> [] /\
  Forall (fun seg => ~ substring_of "." seg) (split_dot key) /\
  String.concat "." (split_dot key) = key.
Proof.
  split; [apply split_dot_nonempty|].
  induction key as [|c rest [IHdots IHjoin]].
  - split; [|reflexivity]. repeat constructor.
    intros ([|a pre] & post & H); discriminate H.
  - pose proof (split_dot_nonempty rest) as Hne. simpl.
    destruct (Ascii.eqb_spec c "."%char) as [-> | Hc].
    + split.
      * constructor; [|exact IHdots].
        intros ([|a pre] & post & H); discriminate H.
      * destruct (split_dot rest) as [|seg segs] eqn:E; [contradiction|].
        change (String "." (String.concat "." (seg :: segs)) = String "." rest).
        now rewrite IHjoin.
    + destruct (split_dot rest) as [|seg segs] eqn:E; [contradiction|].
      pose proof (List.Forall_inv IHdots) as Hseg.
      pose proof (List.Forall_inv_tail IHdots) as Hsegs. split.
      * constructor; [now apply no_dot_cons | exact Hsegs].
      * destruct segs as [|seg' segs].
        -- simpl in *. now rewrite IHjoin.
        -- change (String c (String.concat "." (seg :: seg' :: segs))
                   = String c rest).
           now rewrite IHjoin.
Qed.

Lemma resolve_walk_not_object (node : JSValue) (keys : list string) :
  is_object node = false -> keys <> [] -> resolve_walk node keys = None.
Proof.
  intros Hnode Hkeys. destruct keys as [|k keys]; [contradiction|].
  now destruct node.
Qed.

(** X10. A language for which [TRANSLATIONS] holds no dictionary is
    translated as English is: [t] gives for every key what it gives under
    "en"; and when there is no English dictionary either, [t] gives the key
    back. *)
Theorem t_without_dictionary (TRANSLATIONS : JSValue)
  (language key : string) :
  is_object (get_property language TRANSLATIONS) = false ->
  t TRANSLATIONS language key = t TRANSLATIONS "en" key /\
  (is_object (get_property "en" TRANSLATIONS) = false ->
   t TRANSLATIONS language key = key).
Proof.
  intro Hlang.
  pose proof (resolve_walk_not_object _ (split_dot key) Hlang
                (split_dot_nonempty key)) as Hnone.
  assert (Ht : forall l, t TRANSLATIONS l key
             = default (default key (resolve_walk
                                       (get_property "en" TRANSLATIONS)
                                       (split_dot key)))
                 (resolve_walk (get_property l TRANSLATIONS) (split_dot key))).
  { intro l. unfold t.
    rewrite (walk_language_resolve_walk (get_property l TRANSLATIONS)).
    rewrite walk_fallback_resolve_walk.
    now destruct (walk_language (get_property l TRANSLATIONS) (split_dot key)). }
  split.
  - rewrite (Ht language), (Ht "en"), Hnone. simpl.
    now destruct (resolve_walk (get_property "en" TRANSLATIONS) (split_dot key)).
  - intro Hen. rewrite (Ht language), Hnone.
    now rewrite (resolve_walk_not_object _ (split_dot key) Hen
                   (split_dot_nonempty key)).
Qed.

Lemma t_without_dictionary_witness :
  is_object (get_property "xx" sample_translations) = false /\
  t sample_translations "xx" "sidebar.home"
  = t sample_translations "en" "sidebar.home".
Proof.
  assert (H : is_object (get_property "xx" sample_translations) = false)
    by reflexivity.
  split; [exact H|].
  exact (proj1 (t_without_dictionary sample_translations "xx" "sidebar.home" H)).
Defined.

(** ** Debounce *)

Section DebounceInvariants.
Import Debounce.
Context (h : Host) (MOCK_VIDEOS : list Video).
Implicit Types (rt : Runtime) (tm : Timer).

Local Abbreviation tick := (tick h MOCK_VIDEOS).
Local Abbreviation advance := (advance h MOCK_VIDEOS).
Local Abbreviation filtered := (filtered h MOCK_VIDEOS).
Local Abbreviation reachable := (reachable h MOCK_VIDEOS).

(** With no timer pending, what is shown is the filter of the current
    criteria. *)
Lemma reachable_settled rt :
  reachable rt -> timers rt = [] -> visible rt = filtered (current rt).
Proof.
  induction 1 as [c | c rt Hr _ | rt Hr IH].
  - discriminate.
  - rewrite (trigger_well_formed c rt
               (reachable_well_formed h MOCK_VIDEOS rt Hr)).
    discriminate.
  - destruct (reachable_well_formed h MOCK_VIDEOS rt Hr)
      as [[Hidle | (tm & Hone & Hcl & Hcap & Hlt & Hle)] _].
    + rewrite (tick_idle h MOCK_VIDEOS rt Hidle). simpl. intros _.
      now apply IH.
    + destruct (Nat.lt_ge_cases (S (clock rt)) (deadline tm)) as [Hw | Hf].
      * rewrite (tick_waiting h MOCK_VIDEOS rt tm Hone Hw). simpl.
        rewrite Hone. discriminate.
      * rewrite (tick_firing h MOCK_VIDEOS rt tm Hone Hf). simpl.
        intros _. now rewrite Hcap.
Qed.

Lemma unmount_fields rt :
  clock (unmount rt) = clock rt /\ visible (unmount rt) = visible rt /\
  recomputations (unmount rt) = recomputations rt.
Proof. unfold unmount. now destruct (cleanup rt). Qed.
End DebounceInvariants.

(** X8. In every state the effect reaches, at most one timer is pending;
    a pending timer holds the current criteria and is due within the quiet
    period; and when no timer is pending the visible set is the filter of
    the current criteria. *)
Theorem debounce_pending_or_settled (h : Host) (MOCK_VIDEOS : list Video)
  (rt : Debounce.Runtime) :
  Debounce.reachable h MOCK_VIDEOS rt ->
  (List.length (Debounce.timers rt) <= 1)%nat /\
  (forall tm, In tm (Debounce.timers rt) ->
     Debounce.captured tm = Debounce.current rt /\
     (Debounce.clock rt < Debounce.deadline tm
      <= Debounce.clock rt + Debounce.delay)%nat) /\
  (Debounce.timers rt = [] ->
   Debounce.visible rt
   = Debounce.filtered h MOCK_VIDEOS (Debounce.current rt)).
Proof.
  intro Hr. pose proof (reachable_well_formed h MOCK_VIDEOS rt Hr) as Hwf.
  destruct Hwf as [[Hidle | (tm & Hone & Hcl & Hcap & Hlt & Hle)] _].
  - rewrite Hidle. split; [simpl; lia|]. split; [intros tm []|].
    intros _. now apply reachable_settled.
  - rewrite Hone. split; [simpl; lia|]. split; [|discriminate].
    intros tm' [<- | []]. split; [exact Hcap | lia].
Qed.

Lemma debounce_pending_or_settled_witness :
  Debounce.reachable ascii_host [video_a; video_b]
    (Debounce.advance ascii_host [video_a; video_b] 300
       (Debounce.mount (criteria_of "jazz"))) /\
  (Debounce.timers
     (Debounce.advance ascii_host [video_a; video_b] 300
        (Debounce.mount (criteria_of "jazz"))) = [] ->
   Debounce.visible
     (Debounce.advance ascii_host [video_a; video_b] 300
        (Debounce.mount (criteria_of "jazz")))
   = Debounce.filtered ascii_host [video_a; video_b]
       (Debounce.current
          (Debounce.advance ascii_host [video_a; video_b] 300
             (Debounce.mount (criteria_of "jazz"))))).
Proof.
  assert (Hr : Debounce.reachable ascii_host [video_a; video_b]
                 (Debounce.advance ascii_host [video_a; video_b] 300
                    (Debounce.mount (criteria_of "jazz")))).
  { apply advance_reachable. constructor. }
  split; [exact Hr|].
  exact (proj2 (proj2 (debounce_pending_or_settled ascii_host
                         [video_a; video_b] _ Hr))).
Defined.

(** X9. After tear-down no timer is pending and nothing is recomputed any
    more: however much time passes, the recomputations and the visible set
    stay as they were. *)
Theorem unmount_stops_recomputation (h : Host) (MOCK_VIDEOS : list Video)
  (rt : Debounce.Runtime) (d : nat) :
  Debounce.reachable h MOCK_VIDEOS rt ->
  Debounce.timers (Debounce.unmount rt) = [] /\
  Debounce.recomputations
    (Debounce.advance h MOCK_VIDEOS d (Debounce.unmount rt))
  = Debounce.recomputations rt /\
  Debounce.visible (Debounce.advance h MOCK_VIDEOS d (Debounce.unmount rt))
  = Debounce.visible rt.
Proof.
  intro Hr. pose proof (reachable_well_formed h MOCK_VIDEOS rt Hr) as Hwf.
  pose proof (unmount_cancels rt Hwf) as Hnone.
  destruct (unmount_fields rt) as (_ & Hvis & Hrec).
  split; [exact Hnone|].
  rewrite (advance_idle h MOCK_VIDEOS d _ Hnone). simpl.
  now split.
Qed.

Lemma unmount_stops_recomputation_witness :
  Debounce.reachable ascii_host [video_a; video_b]
    (Debounce.mount (criteria_of "jazz")) /\
  Debounce.recomputations
    (Debounce.advance ascii_host [video_a; video_b] 400
       (Debounce.unmount (Debounce.mount (criteria_of "jazz"))))
  = Debounce.recomputations (Debounce.mount (criteria_of "jazz")).
Proof.
  assert (Hr : Debounce.reachable ascii_host [video_a; video_b]
                 (Debounce.mount (criteria_of "jazz"))) by constructor.
  split; [exact Hr|].
  exact (proj1 (proj2 (unmount_stops_recomputation ascii_host
                         [video_a; video_b] _ 400 Hr))).
Defined.

(** ** Persistence *)

#[local] Instance Effect_eq_dec : EqDecision Effect.
Proof. solve_decision. Defined.

Section Persistence.
Context (ser : Serializer).
Implicit Types (s old new : AppState) (storage : Storage) (key : string)
  (e : Effect) (rerun : Effect -> bool).

Lemma run_storage_effect_lookup e s storage key :
  run_storage_effect ser e s storage !! key
  = if decide (effect_of_key key = Some e) then left_under ser s key
    else storage !! key.
Proof.
  unfold left_under, written, effect_of_key, run_storage_effect, setItem,
    removeItem.
  destruct e, (user s); simpl;
    repeat (case_decide; [subst; try now simplify_map_eq|]);
    try now simplify_map_eq.
Qed.

Lemma fold_effects_lookup rerun (l : list Effect) s storage key :
  fold_left
    (fun st e => if rerun e then run_storage_effect ser e s st else st)
    l storage !! key
  = match effect_of_key key with
    | Some e => if bool_decide (e ∈ l) && rerun e then left_under ser s key
                else storage !! key
    | None => storage !! key
    end.
Proof.
  revert storage. induction l as [|a l IH]; intro storage.
  - simpl. now destruct (effect_of_key key).
  - cbn [fold_left]. rewrite IH.
    destruct (effect_of_key key) as [e|] eqn:Ek.
    + destruct (decide (e = a)) as [-> | Hne].
      * rewrite (bool_decide_eq_true_2 (a ∈ a :: l)) by apply list_elem_of_here.
        destruct (rerun a) eqn:Ea; simpl.
        -- rewrite run_storage_effect_lookup, Ek, decide_True by reflexivity.
           now destruct (bool_decide (a ∈ l)).
        -- now rewrite andb_false_r.
      * assert (Hmem : bool_decide (e ∈ a :: l) = bool_decide (e ∈ l)).
        { apply bool_decide_ext. rewrite elem_of_cons. intuition congruence. }
        rewrite Hmem. destruct (bool_decide (e ∈ l) && rerun e); [reflexivity|].
        destruct (rerun a); [|reflexivity].
        rewrite run_storage_effect_lookup, Ek, decide_False; congruence.
    + destruct (rerun a); [|reflexivity].
      rewrite run_storage_effect_lookup, Ek. now rewrite decide_False.
Qed.

Lemma all_effects_complete e : e ∈ all_effects.
Proof. destruct e; unfold all_effects; set_solver. Qed.

Lemma rerender_lookup rerun s storage key :
  rerender ser rerun s storage !! key
  = match effect_of_key key with
    | Some e => if rerun e then left_under ser s key else storage !! key
    | None => storage !! key
    end.
Proof.
  unfold rerender. rewrite fold_effects_lookup.
  destruct (effect_of_key key) as [e|]; [|reflexivity].
  now rewrite (bool_decide_eq_true_2 _ (all_effects_complete e)).
Qed.

Lemma persist_rerender s storage :
  persist ser s storage = rerender ser (fun _ => true) s storage.
Proof. reflexivity. Qed.

Lemma persist_lookup s storage key :
  persist ser s storage !! key
  = match effect_of_key key with
    | Some _ => left_under ser s key
    | None => storage !! key
    end.
Proof. rewrite persist_rerender. apply rerender_lookup. Qed.

Lemma effect_of_key_persisted key :
  effect_of_key key = None <-> ~ In key persisted_keys.
Proof.
  unfold effect_of_key, persisted_keys. simpl.
  repeat (case_decide; [subst; split; [discriminate | tauto]|]).
  split; [|reflexivity]. intros _ Hin. intuition congruence.
Qed.

Lemma left_under_deps_equal e old new key :
  effect_of_key key = Some e -> deps_equal e old new ->
  left_under ser old key = left_under ser new key.
Proof.
  unfold left_under, written, effect_of_key. intros Hk Hd.
  repeat case_decide; simplify_eq; simpl in *;
    try destruct Hd; congruence.
Qed.

Lemma persist_idempotent s storage :
  persist ser s (persist ser s storage) = persist ser s storage.
Proof.
  apply map_eq. intro key. rewrite !persist_lookup.
  now destruct (effect_of_key key).
Qed.
End Persistence.

(** X15. The effects write the seven keys of the component and no other:
    every other key of the storage keeps what it held; running the effects
    again for the same state changes nothing; and after the effects the
    theme, the language and the device view are stored as they are, the
    two flags as "true" or "false", the playlist as [JSON.stringify] gives
    it, and the user as [JSON.stringify] gives it, or not at all when
    there is none. *)
Theorem persist_frame (ser : Serializer) (s : AppState) (storage : Storage) :
  (forall key, ~ In key persisted_keys ->
     persist ser s storage !! key = storage !! key) /\
  persist ser s (persist ser s storage) = persist ser s storage /\
  getItem (persist ser s storage) "theme" = Some (theme s) /\
  getItem (persist ser s storage) "language" = Some (language s) /\
  getItem (persist ser s storage) "isLoggedIn"
  = Some (if isLoggedIn s then "true" else "false") /\
  getItem (persist ser s storage) "user"
  = match user s with
    | Some u => Some (JSON_stringify_user ser u)
    | None => None
    end /\
  getItem (persist ser s storage) "isAutoplayEnabled"
  = Some (if isAutoplayEnabled s then "true" else "false") /\
  getItem (persist ser s storage) "deviceView" = Some (deviceView s) /\
  getItem (persist ser s storage) "playlist"
  = Some (JSON_stringify_playlist ser (playlist s)).
Proof.
  split; [|split; [apply persist_idempotent|]].
  - intros key Hkey. rewrite persist_lookup.
    now rewrite (proj2 (effect_of_key_persisted key) Hkey).
  - unfold getItem. rewrite !persist_lookup. repeat split.
Qed.

(** X18. When the storage holds what the effects wrote for the last state,
    running only the effects whose dependencies changed leaves the storage
    as running all of them would: the storage mirrors the new state. *)
Theorem rerender_synced (ser : Serializer) (rerun : Effect -> bool)
  (old new : AppState) (storage : Storage) :
  persist ser old storage = storage ->
  (forall e, rerun e = false -> deps_equal e old new) ->
  rerender ser rerun new storage = persist ser new storage.
Proof.
  intros Hsync Hdeps. apply map_eq. intro key.
  rewrite rerender_lookup, persist_lookup.
  destruct (effect_of_key key) as [e|] eqn:Ek; [|reflexivity].
  destruct (rerun e) eqn:Er; [reflexivity|].
  rewrite <- Hsync, persist_lookup, Ek.
  exact (left_under_deps_equal ser e old new key Ek (Hdeps e Er)).
Qed.

(** ** Reloading what was persisted *)

Lemma String_of_bool_true (b : bool) :
  bool_decide (Some (String_of_bool b) = Some "true") = b.
Proof. now destruct b. Qed.

Lemma String_of_bool_false (b : bool) :
  negb (bool_decide (Some (String_of_bool b) = Some "false")) = b.
Proof. now destruct b. Qed.

Lemma persist_getItem (ser : Serializer) (s : AppState) (storage : Storage) :
  getItem (persist ser s storage) "theme" = Some (theme s) /\
  getItem (persist ser s storage) "language" = Some (language s) /\
  getItem (persist ser s storage) "isLoggedIn"
  = Some (String_of_bool (isLoggedIn s)) /\
  getItem (persist ser s storage) "user"
  = JSON_stringify_user ser <$> user s /\
  getItem (persist ser s storage) "isAutoplayEnabled"
  = Some (String_of_bool (isAutoplayEnabled s)) /\
  getItem (persist ser s storage) "deviceView" = Some (deviceView s) /\
  getItem (persist ser s storage) "playlist"
  = Some (JSON_stringify_playlist ser (playlist s)).
Proof. unfold getItem. rewrite !persist_lookup. repeat split. Qed.

(** X16. What the effects wrote is what a reload reads: the logged-in flag
    and the autoplay flag come back as they were, and so do the theme, the
    language and the device view when they are not the empty string; an
    empty theme comes back as the dark theme. *)
Theorem reload_preferences (ser : Serializer) (s : AppState)
  (storage : Storage) :
  init_isLoggedIn (persist ser s storage) = isLoggedIn s /\
  init_isAutoplayEnabled (persist ser s storage) = isAutoplayEnabled s /\
  (theme s <> "" -> init_theme (persist ser s storage) = theme s) /\
  (language s <> "" -> init_language (persist ser s storage) = language s) /\
  (deviceView s <> "" ->
   init_deviceView (persist ser s storage) = deviceView s) /\
  (theme s = "" -> init_theme (persist ser s storage) = Theme.Dark).
Proof.
  destruct (persist_getItem ser s storage)
    as (Ht & Hl & Hf & _ & Ha & Hd & _).
  unfold init_isLoggedIn, init_isAutoplayEnabled, init_theme, init_language,
    init_deviceView.
  rewrite Ht, Hl, Hf, Ha, Hd.
  split; [apply String_of_bool_true|].
  split; [apply String_of_bool_false|].
  repeat split; try apply or_default_stored.
  intros ->. reflexivity.
Qed.

Lemma reload_preferences_witness :
  theme (handle ToggleTheme anonymous_state) <> "" /\
  init_theme (persist sample_serializer (handle ToggleTheme anonymous_state)
                {["theme" := "purple"]})
  = theme (handle ToggleTheme anonymous_state).
Proof.
  assert (H : theme (handle ToggleTheme anonymous_state) <> "")
    by discriminate.
  split; [exact H|].
  exact (proj1 (proj2 (proj2 (reload_preferences sample_serializer
                                (handle ToggleTheme anonymous_state)
                                {["theme" := "purple"]}))) H).
Defined.

Lemma json_text_truthy (text : string) :
  json_text text = true -> truthy_string text = true.
Proof. destruct text; [discriminate | reflexivity]. Qed.

(** X17. When [JSON.stringify] and [JSON.parse] agree on the user of a
    state, a reload of what the effects wrote does not throw and starts
    with the same flag and the same user; so a state in which the flag and
    the user agree is reloaded as one in which they agree. *)
Theorem reload_session (h : Host) (ser : Serializer) (s : AppState)
  (storage : Storage) :
  (forall u, user s = Some u ->
     json_text (JSON_stringify_user ser u) = true /\
     user_of_json h (JSON_stringify_user ser u) = Some u) ->
  exists s', init h (persist ser s storage) = Normal s' /\
             isLoggedIn s' = isLoggedIn s /\ user s' = user s /\
             (session_consistent s -> session_consistent s').
Proof.
  intro Hround.
  destruct (persist_getItem ser s storage) as (_ & _ & Hf & Hu & _).
  assert (Huser : init_user h (persist ser s storage) = Normal (user s)).
  { unfold init_user, JSON_parse. rewrite Hu.
    destruct (user s) as [u|]; [|reflexivity]. simpl.
    destruct (Hround u eq_refl) as [Hjson Hback].
    now rewrite (json_text_truthy _ Hjson), Hjson, Hback. }
  assert (Hflag : init_isLoggedIn (persist ser s storage) = isLoggedIn s).
  { unfold init_isLoggedIn. rewrite Hf. apply String_of_bool_true. }
  eexists. unfold init. rewrite Huser. split; [reflexivity|].
  simpl. split; [exact Hflag|]. split; [reflexivity|].
  unfold session_consistent. simpl. now rewrite Hflag.
Qed.

Lemma reload_session_witness :
  (forall u, user (handle Login anonymous_state) = Some u ->
     json_text (JSON_stringify_user sample_serializer u) = true /\
     user_of_json sample_host (JSON_stringify_user sample_serializer u)
     = Some u) /\
  exists s', init sample_host
               (persist sample_serializer (handle Login anonymous_state) ∅)
             = Normal s' /\
             isLoggedIn s' = isLoggedIn (handle Login anonymous_state) /\
             user s' = user (handle Login anonymous_state) /\
             (session_consistent (handle Login anonymous_state) ->
              session_consistent s').
Proof.
  assert (H : forall u, user (handle Login anonymous_state) = Some u ->
     json_text (JSON_stringify_user sample_serializer u) = true /\
     user_of_json sample_host (JSON_stringify_user sample_serializer u)
     = Some u).
  { intros u Hu. simpl in Hu. injection Hu as <-. split; reflexivity. }
  split; [exact H|].
  exact (reload_session sample_host sample_serializer
           (handle Login anonymous_state) ∅ H).
Defined.

(** X20. Once a logout has been persisted, a reload starts logged out
    and without a user and does not throw, whatever the storage held under
    the key of the user before, also a text that is not JSON. *)
Theorem logout_persisted_reloads (h : Host) (ser : Serializer)
  (s : AppState) (storage : Storage) :
  getItem (persist ser (handleLogout s) storage) "user" = None /\
  exists s', init h (persist ser (handleLogout s) storage) = Normal s' /\
             isLoggedIn s' = false /\ user s' = None.
Proof.
  destruct (handleLogout_session s) as [Hflag Huser].
  destruct (persist_getItem ser (handleLogout s) storage)
    as (_ & _ & Hf & Hu & _).
  rewrite Huser in Hu. rewrite Hflag in Hf. split; [exact Hu|].
  eexists. unfold init, init_user. rewrite Hu. split; [reflexivity|].
  simpl. unfold init_isLoggedIn. now rewrite Hf.
Qed.

(** X19. The first render throws exactly when the text stored under the
    key of the user is not empty and is not JSON; nothing stored under
    another key makes it throw. *)
Theorem init_throws_iff (h : Host) (storage : Storage) :
  init h storage = Throw <->
  exists text, getItem storage "user" = Some text /\ text <> "" /\
               json_text text = false.
Proof.
  rewrite <- (init_user_throws h storage). unfold init.
  destruct (init_user h storage); split; intro H;
    try discriminate H; reflexivity.
Qed.

Lemma persist_frame_witness :
  ~ In "cart" persisted_keys /\
  persist sample_serializer anonymous_state {["cart" := "3"]} !! "cart"
  = ({["cart" := "3"]} : Storage) !! "cart".
Proof.
  assert (H : ~ In "cart" persisted_keys).
  { unfold persisted_keys. simpl. intuition discriminate. }
  split; [exact H|].
  exact (proj1 (persist_frame sample_serializer anonymous_state
                  {["cart" := "3"]}) "cart" H).
Defined.

Lemma rerender_synced_witness :
  persist sample_serializer anonymous_state
    (persist sample_serializer anonymous_state ∅)
  = persist sample_serializer anonymous_state ∅ /\
  (forall e, rerun_theme e = false ->
     deps_equal e anonymous_state (handle ToggleTheme anonymous_state)) /\
  rerender sample_serializer rerun_theme (handle ToggleTheme anonymous_state)
    (persist sample_serializer anonymous_state ∅)
  = persist sample_serializer (handle ToggleTheme anonymous_state)
      (persist sample_serializer anonymous_state ∅).
Proof.
  assert (H1 : persist sample_serializer anonymous_state
                 (persist sample_serializer anonymous_state ∅)
               = persist sample_serializer anonymous_state ∅)
    by apply persist_idempotent.
  assert (H2 : forall e, rerun_theme e = false ->
     deps_equal e anonymous_state (handle ToggleTheme anonymous_state)).
  { intros [] He; simpl; try discriminate He; try split; reflexivity. }
  split; [exact H1|]. split; [exact H2|].
  exact (rerender_synced sample_serializer rerun_theme anonymous_state
           (handle ToggleTheme anonymous_state) _ H1 H2).
Defined.

(** ** Session and theme handlers *)

(** X12. Login is idempotent; logging out right after logging in gives
    what logging out alone gives, with the modal closed; and login leaves
    the playlist, the filters, the visible set, the selected video and the
    preferences as they were. *)
Theorem handleLogin_composes (s : AppState) :
  handleLogin (handleLogin s) = handleLogin s /\
  handleLogout (handleLogin s) = setActiveModal None (handleLogout s) /\
  playlist (handleLogin s) = playlist s /\
  searchQuery (handleLogin s) = searchQuery s /\
  selectedCategory (handleLogin s) = selectedCategory s /\
  videos (handleLogin s) = videos s /\
  selectedVideo (handleLogin s) = selectedVideo s /\
  theme (handleLogin s) = theme s /\
  language (handleLogin s) = language s.
Proof.
  split; [reflexivity|]. split; [|repeat split].
  unfold handleLogout, handleLogin. simpl.
  now case_bool_decide.
Qed.

(** X13. [toggleTheme] always leaves a legal theme: the dark theme when
    the theme was light, and the light theme in every other case, also
    when the theme was a string that is no theme at all.  Toggling twice
    gives the state back when the theme was light or dark. *)
Theorem toggleTheme_legal (s : AppState) :
  (theme (toggleTheme s) = Theme.Light \/ theme (toggleTheme s) = Theme.Dark) /\
  (theme (toggleTheme s) = Theme.Dark <-> theme s = Theme.Light) /\
  (theme s <> Theme.Light -> theme (toggleTheme s) = Theme.Light) /\
  (theme s = Theme.Light \/ theme s = Theme.Dark ->
   toggleTheme (toggleTheme s) = s).
Proof.
  unfold toggleTheme. destruct s as [f u th l a d p c v m vs q cat]. simpl.
  destruct (String.eqb_spec th Theme.Light) as [-> | Hne].
  - split; [now right|]. split; [now split|].
    split; [intro H; now contradiction H|]. intros _. reflexivity.
  - split; [now left|]. split; [split; [discriminate | contradiction]|].
    split; [reflexivity|]. intros [-> | ->]; [contradiction | reflexivity].
Qed.

Lemma toggleTheme_legal_witness :
  theme (setTheme (fun _ => "purple") anonymous_state) <> Theme.Light /\
  theme (toggleTheme (setTheme (fun _ => "purple") anonymous_state))
  = Theme.Light.
Proof.
  assert (H : theme (setTheme (fun _ => "purple") anonymous_state)
              <> Theme.Light) by discriminate.
  split; [exact H|].
  exact (proj1 (proj2 (proj2 (toggleTheme_legal
                                (setTheme (fun _ => "purple")
                                   anonymous_state)))) H).
Defined.

(** X14. After the theme effect the document element has the class [dark]
    exactly under the dark theme, and every other class is as it was: a
    stored theme that is neither light nor dark shows the page light. *)
Theorem theme_classList_dark (theme : string) (classList : gset string) :
  ("dark" ∈ theme_classList theme classList <-> theme = Theme.Dark) /\
  (forall c, c <> "dark" ->
     c ∈ theme_classList theme classList <-> c ∈ classList).
Proof.
  unfold theme_classList.
  destruct (String.eqb_spec theme Theme.Dark) as [-> | Hne]; split.
  - split; [reflexivity | set_solver].
  - intros c Hc. set_solver.
  - split; [set_solver | contradiction].
  - intros c Hc. set_solver.
Qed.

Lemma theme_classList_dark_witness :
  "flex" <> "dark" /\
  ("flex" ∈ theme_classList "purple" {["flex"; "dark"]}
   <-> "flex" ∈ ({["flex"; "dark"]} : gset string)).
Proof.
  assert (H : "flex" <> "dark") by discriminate.
  split; [exact H|].
  exact (proj2 (theme_classList_dark "purple" {["flex"; "dark"]}) "flex" H).
Defined.
